(** * Ray Data: the limit operator and the streaming-split coordinator

    A shallow embedding of
      - [python/ray/data/_internal/execution/operators/limit_operator.py]
        (class [LimitOperator]), and
      - [python/ray/data/_internal/stream_split_dataset_iterator.py]
        (class [SplitCoordinator]: [get], [start_epoch], [_barrier]; and
        the generator [gen_blocks] of its reader),
    with the properties the design document states about them and further
    properties read off the code.

    Python integers are [Z].  A method of a stateful object is a function in
    the monad [M S] below: it takes the state of [self] (and of whatever else
    it touches) and returns either a value or the exception it raised,
    together with the state it left behind.  An exception raised half way
    through a method keeps the mutations made before it, as in Python. *)

From Stdlib Require Import ZArith Lia.
From stdpp Require Import base numbers option list strings pretty gmap.

Local Open Scope Z_scope.

(** ** Python outcomes *)

Module Py.

(** The exceptions the two classes can raise or let through.
    [PipelineError] stands for any failure of the pipeline runner other than
    [StopIteration]. *)
Inductive Exn :=
| AssertionError
| ValueError (msg : string)
| StopIteration
| IndexError
| AttributeError
| RayTaskError
| PipelineError (tag : nat).

Inductive Outcome (A : Type) :=
| Return (a : A)
| Raise (e : Exn).
Arguments Return {A} a.
Arguments Raise {A} e.

Definition M (S A : Type) : Type := S -> Outcome A * S.

Definition ret {S A} (a : A) : M S A := fun s => (Return a, s).

Definition raise {S A} (e : Exn) : M S A := fun s => (Raise e, s).

Definition bind {S A B} (c : M S A) (k : A -> M S B) : M S B :=
  fun s =>
    match c s with
    | (Return a, s') => k a s'
    | (Raise e, s') => (Raise e, s')
    end.

Definition read {S A} (f : S -> A) : M S A := fun s => (Return (f s), s).

Definition update {S} (f : S -> S) : M S unit := fun s => (Return tt, f s).

(** [assert b]. *)
Definition assert {S} (b : bool) : M S unit :=
  if b then ret tt else raise AssertionError.

(** [try: body except StopIteration: handler]. *)
Definition except_StopIteration {S A} (body handler : M S A) : M S A :=
  fun s =>
    match body s with
    | (Raise StopIteration, s') => handler s'
    | r => r
    end.

(** [list.pop()]: the last element and the list without it; [IndexError] on
    an empty list. *)
Definition pop {A} (l : list A) : option (A * list A) :=
  match last l with
  | Some x => Some (x, removelast l)
  | None => None
  end.

End Py.

Import Py.

Notation "'let*' x := c1 'in' c2" := (bind c1 (fun x => c2))
  (at level 10, x pattern, c1 at level 100, c2 at level 200).

(** ** Blocks, metadata, bundles and the object store *)

(** The methods of [ray.data.block.BlockAccessor] the operator calls, as an
    interface over the block type: [slice start end] (always called with
    [copy=True]) and [size_bytes], with [num_rows] to state what a block
    holds. *)
Class BlockAccessor (Block : Type) := {
  num_rows : Block -> Z;
  slice : Block -> Z -> Z -> Block;
  size_bytes : Block -> Z
}.

(** Modelled from the spec: [BlockMetadata], declared in [ray.data.block].
    The spec gives it a row count, a size in bytes and an opaque schema; the
    operator asserts that the row count [is not None], so both counts are
    optional here. *)
Record BlockMetadata (Schema : Type) := {
  md_num_rows : option Z;
  md_size_bytes : option Z;
  md_schema : Schema
}.
Arguments md_num_rows {Schema} _.
Arguments md_size_bytes {Schema} _.
Arguments md_schema {Schema} _.

(** Modelled from the spec: [ObjectRef] ([ray.types]), the location handle
    that identifies a block, as the id of an object of the object store. *)
Definition ObjectRef := nat.

(** Modelled from the spec: [RefBundle], declared in
    [execution/interfaces.py], an ordered sequence of (block handle,
    metadata) pairs with an [owns_blocks] flag. *)
Record RefBundle (Schema : Type) := {
  blocks : list (ObjectRef * BlockMetadata Schema);
  owns_blocks : bool
}.
Arguments blocks {Schema} _.
Arguments owns_blocks {Schema} _.

(** Modelled from the spec: what an object of the store holds.  Blocks are
    immutable and a transformation produces a new block, so an object is
    written once: a block, a metadata record, or the error of the task that
    should have produced it. *)
Inductive Obj (Block Schema : Type) :=
| ObjBlock (b : Block)
| ObjMetadata (m : BlockMetadata Schema)
| ObjTaskError.
Arguments ObjBlock {Block Schema} b.
Arguments ObjMetadata {Block Schema} m.
Arguments ObjTaskError {Block Schema}.

(** Modelled from the spec: the object store.  The object with id [i] is
    the [i]-th element; a new object takes the next id. *)
Abbreviation ObjectStore Block Schema := (list (Obj Block Schema)).

Definition store_put {Block Schema} (o : Obj Block Schema)
    (st : ObjectStore Block Schema) : ObjectRef * ObjectStore Block Schema :=
  (length st, st ++ [o]).

(** Simple blocks: a block is the list of its rows; [slice] follows Python's
    [rows[start:end]] for [0 <= start <= end], and a row weighs [row_bytes]. *)
Definition list_slice {Row} (b : list Row) (start stop : Z) : list Row :=
  take (Z.to_nat (stop - start)) (drop (Z.to_nat start) b).

Definition ListAccessor (Row : Type) (row_bytes : Z) : BlockAccessor (list Row) := {|
  num_rows b := Z.of_nat (length b);
  slice := list_slice;
  size_bytes b := row_bytes * Z.of_nat (length b)
|}.

(** ** [limit_operator.py] *)

Module LimitOperator.

Section Operator.

Context {Block Schema : Type} `{!BlockAccessor Block}.

Record LimitOperator := {
  _limit : Z;
  _consumed_rows : Z;
  _buffer : list (RefBundle Schema);
  _name : string;
  _output_metadata : list (BlockMetadata Schema);
  _num_outputs_total : option Z
}.

(** [PhysicalOperator.completed], inherited from the base class of
    [execution/interfaces.py]: a parameter of the model. *)
Context (completed : LimitOperator -> bool).

(** What a method of the operator can touch: the operator and the object
    store. *)
Record World := {
  self : LimitOperator;
  object_store : ObjectStore Block Schema
}.

(** [__init__(self, limit, input_op)], from what
    [input_op.num_outputs_total()] returns; the call of the base class's
    [__init__] only records the name and the input. *)
Definition __init__ (limit : Z) (input_num_outputs_total : option Z) : LimitOperator := {|
  _limit := limit;
  _consumed_rows := 0;
  _buffer := [];
  _name := "Limit[limit=" +:+ pretty limit +:+ "]";
  _output_metadata := [];
  _num_outputs_total :=
    match input_num_outputs_total with
    | Some t => Some (Z.min t limit)
    | None => None
    end
|}.

Definition _limit_reached (op : LimitOperator) : bool :=
  bool_decide (_limit op <= _consumed_rows op).

Definition set_consumed_rows (v : Z) (w : World) : World :=
  {| self := {| _limit := _limit (self w);
                _consumed_rows := v;
                _buffer := _buffer (self w);
                _name := _name (self w);
                _output_metadata := _output_metadata (self w);
                _num_outputs_total := _num_outputs_total (self w) |};
     object_store := object_store w |}.

Definition append_output_metadata (m : BlockMetadata Schema) (w : World) : World :=
  {| self := {| _limit := _limit (self w);
                _consumed_rows := _consumed_rows (self w);
                _buffer := _buffer (self w);
                _name := _name (self w);
                _output_metadata := _output_metadata (self w) ++ [m];
                _num_outputs_total := _num_outputs_total (self w) |};
     object_store := object_store w |}.

Definition append_buffer (b : RefBundle Schema) (w : World) : World :=
  {| self := {| _limit := _limit (self w);
                _consumed_rows := _consumed_rows (self w);
                _buffer := _buffer (self w) ++ [b];
                _name := _name (self w);
                _output_metadata := _output_metadata (self w);
                _num_outputs_total := _num_outputs_total (self w) |};
     object_store := object_store w |}.

Definition set_buffer (q : list (RefBundle Schema)) (w : World) : World :=
  {| self := {| _limit := _limit (self w);
                _consumed_rows := _consumed_rows (self w);
                _buffer := q;
                _name := _name (self w);
                _output_metadata := _output_metadata (self w);
                _num_outputs_total := _num_outputs_total (self w) |};
     object_store := object_store w |}.

(** [slice_fn(block, metadata, num_rows)], the body of the remote task. *)
Definition slice_fn (block : Block) (metadata : BlockMetadata Schema) (n : Z)
    : Block * BlockMetadata Schema :=
  let block := slice block 0 n in
  (block,
   {| md_num_rows := Some n;
      md_size_bytes := Some (size_bytes block);
      md_schema := md_schema metadata |}).

(** Modelled from the spec:
    [cached_remote_fn(slice_fn, num_returns=2).remote(block, metadata, n)].
    The task resolves the block handle, runs [slice_fn] and stores its two
    results as two new objects, whose handles the call returns.  A handle
    that does not resolve to a block makes the task fail: its two results
    are then error objects, and the failure shows at [ray.get]. *)
Definition remote_slice_fn (block : ObjectRef) (metadata : BlockMetadata Schema) (n : Z)
    : M World (ObjectRef * ObjectRef) :=
  fun w =>
    let '(o1, o2) :=
      match object_store w !! block with
      | Some (ObjBlock b) =>
          let '(b', m') := slice_fn b metadata n in (ObjBlock b', ObjMetadata m')
      | _ => (ObjTaskError, ObjTaskError)
      end in
    let '(r1, st1) := store_put o1 (object_store w) in
    let '(r2, st2) := store_put o2 st1 in
    (Return (r1, r2), {| self := self w; object_store := st2 |}).

(** Modelled from the spec: [ray.get(metadata_ref)], which hands out the
    metadata the task stored, or raises the task's failure. *)
Definition ray_get_metadata (r : ObjectRef) : M World (BlockMetadata Schema) :=
  fun w =>
    match object_store w !! r with
    | Some (ObjMetadata m) => (Return m, w)
    | _ => (Raise RayTaskError, w)
    end.

(** The [for block, metadata in refs.blocks] loop of [add_input], with the
    two local lists it fills; it returns them when it ends or breaks. *)
Fixpoint add_input_loop (pairs : list (ObjectRef * BlockMetadata Schema))
    (out_blocks : list ObjectRef) (out_metadata : list (BlockMetadata Schema))
    : M World (list ObjectRef * list (BlockMetadata Schema)) :=
  match pairs with
  | [] => ret (out_blocks, out_metadata)
  | (block, metadata) :: rest =>
      match md_num_rows metadata with
      | None => raise AssertionError
      | Some num_rows =>
          let* consumed := read (fun w => _consumed_rows (self w)) in
          let* limit := read (fun w => _limit (self w)) in
          if bool_decide (consumed + num_rows <= limit) then
            let* _ := update (set_consumed_rows (consumed + num_rows)) in
            let* _ := update (append_output_metadata metadata) in
            add_input_loop rest (out_blocks ++ [block]) (out_metadata ++ [metadata])
          else
            (* Slice the last block. *)
            let* (block, metadata_ref) :=
              remote_slice_fn block metadata (limit - consumed) in
            let* metadata := ray_get_metadata metadata_ref in
            let* _ := update (append_output_metadata metadata) in
            ret (out_blocks ++ [block], out_metadata ++ [metadata])
      end
  end.

Definition add_input (refs : RefBundle Schema) (input_index : Z) : M World unit :=
  let* done := read (fun w => completed (self w)) in
  let* _ := assert (negb done) in
  let* _ := assert (bool_decide (input_index = 0)) in
  let* reached := read (fun w => _limit_reached (self w)) in
  if reached then ret tt
  else
    let* (out_blocks, out_metadata) := add_input_loop (blocks refs) [] [] in
    let out_refs :=
      {| blocks := zip out_blocks out_metadata; owns_blocks := owns_blocks refs |} in
    update (append_buffer out_refs).

Definition has_next (op : LimitOperator) : bool :=
  bool_decide (0 < Z.of_nat (length (_buffer op))).

(** [self._buffer.popleft()]; an empty deque raises [IndexError]. *)
Definition get_next : M World (RefBundle Schema) :=
  fun w =>
    match _buffer (self w) with
    | [] => (Raise IndexError, w)
    | b :: q => (Return b, set_buffer q w)
    end.

Definition get_stats (op : LimitOperator) : list (string * list (BlockMetadata Schema)) :=
  [(_name op, _output_metadata op)].

Definition num_outputs_total (op : LimitOperator) : option Z :=
  if _limit_reached op then Some (_limit op) else _num_outputs_total op.

(** A run of the operator: the calls its driver makes, one after the other.
    A call that raises leaves the operator as the exception found it. *)
Inductive Call :=
| CallAddInput (refs : RefBundle Schema) (input_index : Z)
| CallGetNext.

Definition do_call (c : Call) (w : World) : World :=
  match c with
  | CallAddInput refs input_index => (add_input refs input_index w).2
  | CallGetNext => (get_next w).2
  end.

Definition run (calls : list Call) (w : World) : World :=
  foldl (fun w c => do_call c w) w calls.

(** The rows the operator has forwarded so far, by its metadata log. *)
Definition logged_rows (ms : list (BlockMetadata Schema)) : Z :=
  foldr (fun m acc => default 0 (md_num_rows m) + acc) 0 ms.

(** The (handle, metadata) pairs of the bundles of a queue, in order. *)
Definition forwarded (q : list (RefBundle Schema)) : list (ObjectRef * BlockMetadata Schema) :=
  concat (map blocks q).

(** The two fields [__init__] sets and no method assigns. *)
Definition fixed_fields (op : LimitOperator) : Z * option Z :=
  (_limit op, _num_outputs_total op).

(** Every block handle of the list resolves to a block of the store. *)
Definition handles_resolve (st : ObjectStore Block Schema)
    (pairs : list (ObjectRef * BlockMetadata Schema)) : Prop :=
  Forall (fun p => exists b, st !! p.1 = Some (ObjBlock b)) pairs.

(** Every metadata of the list carries a row count. *)
Definition rows_known (pairs : list (ObjectRef * BlockMetadata Schema)) : Prop :=
  Forall (fun p => is_Some (md_num_rows p.2)) pairs.

(** Every metadata of the list carries a row count that is not negative. *)
Definition rows_nonneg (pairs : list (ObjectRef * BlockMetadata Schema)) : Prop :=
  Forall (fun p => exists n, md_num_rows p.2 = Some n /\ 0 <= n) pairs.

(** The rows of a bundle, by its metadata. *)
Definition total_rows (pairs : list (ObjectRef * BlockMetadata Schema)) : Z :=
  logged_rows (map snd pairs).

(** The operator after it has forwarded every pair of the list unchanged:
    their rows are counted and their metadata logged. *)
Definition forward_all (pairs : list (ObjectRef * BlockMetadata Schema)) (w : World)
    : World :=
  {| self := {| _limit := _limit (self w);
                _consumed_rows := _consumed_rows (self w) + total_rows pairs;
                _buffer := _buffer (self w);
                _name := _name (self w);
                _output_metadata := _output_metadata (self w) ++ map snd pairs;
                _num_outputs_total := _num_outputs_total (self w) |};
     object_store := object_store w |}.

(** Every handle of the list resolves to a block, and the metadata beside it
    gives that block's number of rows. *)
Definition truthful (st : ObjectStore Block Schema)
    (pairs : list (ObjectRef * BlockMetadata Schema)) : Prop :=
  Forall (fun p => exists b, st !! p.1 = Some (ObjBlock b)
                             /\ md_num_rows p.2 = Some (num_rows b)) pairs.

(** What [BlockAccessor.slice] is used for: the first [n] rows of a block
    make a block of [n] rows. *)
Definition slice_exact : Prop :=
  forall (b : Block) n, 0 <= n <= num_rows b -> num_rows (slice b 0 n) = n.

(** The bundles fed to the operator one after the other, as its one
    input. *)
Definition feed (bundles : list (RefBundle Schema)) (w : World) : World :=
  run (map (fun refs => CallAddInput refs 0) bundles) w.

(** The rows of a list of bundles, by their metadata. *)
Definition bundles_rows (bundles : list (RefBundle Schema)) : Z :=
  foldr (fun refs acc => total_rows (blocks refs) + acc) 0 bundles.

(** [k] calls of [get_next] in a row, with what each returned or raised. *)
Fixpoint get_nexts (k : nat) (w : World) : list (Outcome (RefBundle Schema)) * World :=
  match k with
  | O => ([], w)
  | S k =>
      let '(r, w1) := get_next w in
      let '(rs, w2) := get_nexts k w1 in
      (r :: rs, w2)
  end.

End Operator.

End LimitOperator.

(** ** [stream_split_dataset_iterator.py] *)

Module SplitCoordinator.

Section Coordinator.

Context {Schema : Type}.

(** The pipeline runner of an epoch (the iterator
    [execute_to_legacy_bundle_iterator] returns) is an external collaborator:
    [runner_get_next it idx] is what [it.get_next(idx)] returns or raises,
    and the runner it leaves; [gen_epochs_yield k] is the runner the
    generator [gen_epochs()] builds when it is resumed for the [k]-th time. *)
Context {Runner : Type}.
Context (runner_get_next : Runner -> Z -> Outcome (RefBundle Schema) * Runner).
Context (gen_epochs_yield : nat -> Runner).

(** The fields of the actor that [get] and [_barrier] use.  [_next_epoch] is
    the generator, held as the number of runners it has yielded; the lock is
    part of [System] below. *)
Record SplitCoordinator := {
  _n : Z;
  _next_bundle : gmap Z (RefBundle Schema);
  _unfinished_clients_in_epoch : Z;
  _cur_epoch : Z;
  _next_epoch : nat;
  _output_iterator : option Runner
}.

Definition __init__ (n : Z) : SplitCoordinator := {|
  _n := n;
  _next_bundle := ∅;
  _unfinished_clients_in_epoch := n;
  _cur_epoch := -1;
  _next_epoch := 0;
  _output_iterator := None
|}.

Definition set_next_bundle (m : gmap Z (RefBundle Schema)) (c : SplitCoordinator)
    : SplitCoordinator :=
  {| _n := _n c;
     _next_bundle := m;
     _unfinished_clients_in_epoch := _unfinished_clients_in_epoch c;
     _cur_epoch := _cur_epoch c;
     _next_epoch := _next_epoch c;
     _output_iterator := _output_iterator c |}.

Definition set_unfinished_clients_in_epoch (v : Z) (c : SplitCoordinator)
    : SplitCoordinator :=
  {| _n := _n c;
     _next_bundle := _next_bundle c;
     _unfinished_clients_in_epoch := v;
     _cur_epoch := _cur_epoch c;
     _next_epoch := _next_epoch c;
     _output_iterator := _output_iterator c |}.

Definition set_cur_epoch (v : Z) (c : SplitCoordinator) : SplitCoordinator :=
  {| _n := _n c;
     _next_bundle := _next_bundle c;
     _unfinished_clients_in_epoch := _unfinished_clients_in_epoch c;
     _cur_epoch := v;
     _next_epoch := _next_epoch c;
     _output_iterator := _output_iterator c |}.

Definition set_output_iterator (it : option Runner) (c : SplitCoordinator)
    : SplitCoordinator :=
  {| _n := _n c;
     _next_bundle := _next_bundle c;
     _unfinished_clients_in_epoch := _unfinished_clients_in_epoch c;
     _cur_epoch := _cur_epoch c;
     _next_epoch := _next_epoch c;
     _output_iterator := it |}.

(** [self._output_iterator = next(self._next_epoch)]. *)
Definition next_epoch (c : SplitCoordinator) : SplitCoordinator :=
  {| _n := _n c;
     _next_bundle := _next_bundle c;
     _unfinished_clients_in_epoch := _unfinished_clients_in_epoch c;
     _cur_epoch := _cur_epoch c;
     _next_epoch := S (_next_epoch c);
     _output_iterator := Some (gen_epochs_yield (_next_epoch c)) |}.

(** [self._output_iterator.get_next(output_split_idx)]; before the first
    epoch the attribute is [None], which has no [get_next]. *)
Definition output_iterator_get_next (output_split_idx : Z)
    : M SplitCoordinator (RefBundle Schema) :=
  fun c =>
    match _output_iterator c with
    | None => (Raise AttributeError, c)
    | Some it =>
        let '(r, it') := runner_get_next it output_split_idx in
        (r, set_output_iterator (Some it') c)
    end.

Definition invalid_epoch : Exn :=
  ValueError "Invalid iterator: the datastream has moved on to another epoch.".

(** [get(self, epoch_id, output_split_idx)], one call run on its own.  The
    bundle is held by value: [next_bundle.blocks.pop()] drains the very
    object the map may hold, and the same object is stored back (or its
    entry deleted) before the call returns, with no statement that can raise
    in between. *)
Definition get (epoch_id output_split_idx : Z) : M SplitCoordinator (option ObjectRef) :=
  let* cur_epoch := read _cur_epoch in
  if bool_decide (epoch_id ≠ cur_epoch) then raise invalid_epoch
  else
    except_StopIteration
      ((* Ensure there is at least one bundle. *)
       let* next_bundle := read (fun c => _next_bundle c !! output_split_idx) in
       (* Fetch next bundle if needed. *)
       let* next_bundle :=
         match next_bundle with
         | Some b => ret b
         | None => output_iterator_get_next output_split_idx
         end in
       match pop (blocks next_bundle) with
       | None => raise IndexError
       | Some ((block, _), rest) =>
           let next_bundle := {| blocks := rest; owns_blocks := owns_blocks next_bundle |} in
           (* Accumulate any remaining blocks in next_bundle map as needed. *)
           let* _ := update (fun c =>
             set_next_bundle (<[output_split_idx := next_bundle]> (_next_bundle c)) c) in
           let* _ :=
             match blocks next_bundle with
             | [] => update (fun c =>
                 set_next_bundle (delete output_split_idx (_next_bundle c)) c)
             | _ :: _ => ret tt
             end in
           ret (Some block)
       end)
      (ret None).

(** No entry of the leftover map is a bundle without blocks. *)
Definition no_empty_leftover (c : SplitCoordinator) : Prop :=
  forall idx b, _next_bundle c !! idx = Some b -> blocks b <> [].

(** A client's [get] calls, as (epoch id, output index) pairs, one after the
    other; a call that raises leaves the coordinator as the exception found
    it. *)
Definition gets (calls : list (Z * Z)) (c : SplitCoordinator) : SplitCoordinator :=
  foldl (fun c call => (get call.1 call.2 c).2) c calls.

(** [k] calls of [get] in a row by the reader of one index, with what each
    returned or raised. *)
Fixpoint reads (k : nat) (epoch_id output_split_idx : Z) (c : SplitCoordinator)
    : list (Outcome (option ObjectRef)) * SplitCoordinator :=
  match k with
  | O => ([], c)
  | S k =>
      let '(r, c1) := get epoch_id output_split_idx c in
      let '(rs, c2) := reads k epoch_id output_split_idx c1 in
      (r :: rs, c2)
  end.

(** The runner [it], asked for index [idx] again and again, gives the
    bundles [bs] in order and is then the runner [it_end]. *)
Fixpoint yields (it : Runner) (idx : Z) (bs : list (RefBundle Schema)) (it_end : Runner)
    : Prop :=
  match bs with
  | [] => it_end = it
  | b :: rest =>
      exists it', runner_get_next it idx = (Return b, it') /\ yields it' idx rest it_end
  end.

(** The block handles of a bundle in the order [get] hands them out: last
    first. *)
Definition handed_out (b : RefBundle Schema) : list ObjectRef :=
  rev (map fst (blocks b)).

(** *** The client reader

    [StreamSplitDatasetIterator]: the fields are the dataset, the handle of
    the coordinator actor and the output index; only the index varies. *)
Record StreamSplitDatasetIterator := {
  _output_split_idx : Z
}.

(** The generator [gen_blocks] of [iter_batches], from the point where
    [start_epoch] has returned [cur_epoch].  Between two of its [yield]s the
    generator holds [future], the [get] call it has already sent to the
    actor; an actor call is run when it is sent.  [ray.get(future)] raises
    what the call raised. *)
Inductive Resumed :=
| Yielded (block_ref : ObjectRef) (future : Outcome (option ObjectRef))
| Stopped
| Failed (e : Exn).

(** The first [get.remote] of the generator: the future it holds, and the
    coordinator after the call. *)
Definition gen_blocks_start (self : StreamSplitDatasetIterator) (cur_epoch : Z)
    (c : SplitCoordinator) : Outcome (option ObjectRef) * SplitCoordinator :=
  get cur_epoch (_output_split_idx self) c.

(** One turn of the [while True] loop, up to the [yield] or the [break]. *)
Definition gen_blocks_resume (self : StreamSplitDatasetIterator) (cur_epoch : Z)
    (future : Outcome (option ObjectRef)) (c : SplitCoordinator)
    : Resumed * SplitCoordinator :=
  match future with
  | Raise e => (Failed e, c)
  | Return None => (Stopped, c)
  | Return (Some block_ref) =>
      let '(r, c1) := get cur_epoch (_output_split_idx self) c in
      (Yielded block_ref r, c1)
  end.

(** The generator run by a consumer that asks for at most [k] blocks: the
    blocks it was given, how the generator stands ([None] while it is
    suspended at a [yield]), and the coordinator. *)
Fixpoint gen_blocks_take (k : nat) (self : StreamSplitDatasetIterator) (cur_epoch : Z)
    (future : Outcome (option ObjectRef)) (c : SplitCoordinator)
    : list ObjectRef * option Resumed * SplitCoordinator :=
  match k with
  | O => ([], None, c)
  | S k =>
      match gen_blocks_resume self cur_epoch future c with
      | (Yielded block_ref future', c1) =>
          let '(bs, st, c2) := gen_blocks_take k self cur_epoch future' c1 in
          (block_ref :: bs, st, c2)
      | (r, c1) => ([], Some r, c1)
      end
  end.

(** *** [_barrier], with its callers interleaved

    [start_epoch(split_idx)] is [_barrier(split_idx)].  Each caller is a
    thread of the actor; [Pc] is where a thread stands in [_barrier], with
    its local [starting_epoch] once line 235 has bound it.  A thread inside
    a [with self._lock] block owns the lock.  The two operands of the loop
    condition are read one after the other, outside the lock.  The
    thirty-second warning of the loop only logs and is left out. *)
Inductive Pc :=
| AtAcquire1
| AtReadEpoch
| AtDecrement (starting_epoch : Z)
| AtRelease1 (starting_epoch : Z)
| AtLoopEpoch (starting_epoch : Z)
| AtLoopCount (starting_epoch : Z)
| AtSleep (starting_epoch : Z)
| AtAcquire2 (starting_epoch : Z)
| AtCheck (starting_epoch : Z)
| AtIncrement (starting_epoch : Z)
| AtReset (starting_epoch : Z)
| AtNextEpoch (starting_epoch : Z)
| AtRelease2 (starting_epoch : Z)
| AtAssert (starting_epoch : Z)
| Returned (epoch_id : Z)
| Raised (e : Exn).

Record System := {
  coordinator : SplitCoordinator;
  lock_owner : option nat;
  threads : list Pc
}.

Definition goto (i : nat) (pc : Pc) (σ : System) : System :=
  {| coordinator := coordinator σ;
     lock_owner := lock_owner σ;
     threads := <[i := pc]> (threads σ) |}.

Definition acquire (i : nat) (pc : Pc) (σ : System) : option System :=
  match lock_owner σ with
  | None =>
      Some {| coordinator := coordinator σ;
              lock_owner := Some i;
              threads := <[i := pc]> (threads σ) |}
  | Some _ => None
  end.

Definition release (i : nat) (pc : Pc) (σ : System) : System :=
  {| coordinator := coordinator σ;
     lock_owner := None;
     threads := <[i := pc]> (threads σ) |}.

Definition assign (i : nat) (pc : Pc) (f : SplitCoordinator -> SplitCoordinator)
    (σ : System) : System :=
  {| coordinator := f (coordinator σ);
     lock_owner := lock_owner σ;
     threads := <[i := pc]> (threads σ) |}.

(** One statement of thread [i]; [None] when the thread does not exist, waits
    for the lock, or has left [_barrier]. *)
Definition step (i : nat) (σ : System) : option System :=
  let c := coordinator σ in
  match threads σ !! i with
  | None => None
  | Some pc =>
      match pc with
      | AtAcquire1 => acquire i AtReadEpoch σ
      | AtReadEpoch => Some (goto i (AtDecrement (_cur_epoch c)) σ)
      | AtDecrement s =>
          Some (assign i (AtRelease1 s)
                  (set_unfinished_clients_in_epoch (_unfinished_clients_in_epoch c - 1)) σ)
      | AtRelease1 s => Some (release i (AtLoopEpoch s) σ)
      | AtLoopEpoch s =>
          Some (goto i (if bool_decide (_cur_epoch c = s)
                        then AtLoopCount s else AtAcquire2 s) σ)
      | AtLoopCount s =>
          Some (goto i (if bool_decide (_unfinished_clients_in_epoch c ≠ 0)
                        then AtSleep s else AtAcquire2 s) σ)
      | AtSleep s => Some (goto i (AtLoopEpoch s) σ)
      | AtAcquire2 s => acquire i (AtCheck s) σ
      | AtCheck s =>
          Some (goto i (if bool_decide (_cur_epoch c = s)
                        then AtIncrement s else AtRelease2 s) σ)
      | AtIncrement s => Some (assign i (AtReset s) (set_cur_epoch (_cur_epoch c + 1)) σ)
      | AtReset s => Some (assign i (AtNextEpoch s) (set_unfinished_clients_in_epoch (_n c)) σ)
      | AtNextEpoch s => Some (assign i (AtRelease2 s) next_epoch σ)
      | AtRelease2 s => Some (release i (AtAssert s) σ)
      | AtAssert s =>
          Some (goto i (match _output_iterator c with
                        | Some _ => Returned (s + 1)
                        | None => Raised AssertionError
                        end) σ)
      | Returned _ | Raised _ => None
      end
  end.

(** A schedule names the thread that runs next; a thread that cannot move
    lets its turn pass. *)
Definition run (sched : list nat) (σ : System) : System :=
  foldl (fun σ i => default σ (step i σ)) σ sched.

(** [n] clients have just called [start_epoch] on the coordinator [c]. *)
Definition start_epoch_calls (c : SplitCoordinator) (n : nat) : System :=
  {| coordinator := c; lock_owner := None; threads := replicate n AtAcquire1 |}.

(** The coordinator once a barrier that started from [c] has been passed: the
    epoch id is one more, the arrival counter is back at [_n], and one new
    runner has been taken from the generator. *)
Definition epoch_advanced (c : SplitCoordinator) : SplitCoordinator :=
  next_epoch
    (set_unfinished_clients_in_epoch (_n c) (set_cur_epoch (_cur_epoch c + 1) c)).

(** The thread has run line 236: it has arrived at the barrier. *)
Definition arrived (pc : Pc) : bool :=
  match pc with
  | AtAcquire1 | AtReadEpoch | AtDecrement _ => false
  | _ => true
  end.

(** The thread has left the waiting loop. *)
Definition past_loop (pc : Pc) : bool :=
  match pc with
  | AtAcquire2 _ | AtCheck _ | AtIncrement _ | AtReset _ | AtNextEpoch _
  | AtRelease2 _ | AtAssert _ | Returned _ | Raised _ => true
  | _ => false
  end.

(** The thread is in the waiting loop of lines 239 to 252. *)
Definition in_loop (pc : Pc) : bool :=
  match pc with
  | AtLoopEpoch _ | AtLoopCount _ | AtSleep _ => true
  | _ => false
  end.

(** The thread is inside one of the two [with self._lock] blocks. *)
Definition holds_lock (pc : Pc) : bool :=
  match pc with
  | AtReadEpoch | AtDecrement _ | AtRelease1 _
  | AtCheck _ | AtIncrement _ | AtReset _ | AtNextEpoch _ | AtRelease2 _ => true
  | _ => false
  end.

Definition returned (pc : Pc) : bool :=
  match pc with
  | Returned _ => true
  | _ => false
  end.

Definition all_returned (σ : System) : bool := forallb returned (threads σ).

(** The number of threads that have not arrived yet. *)
Definition pending (ts : list Pc) : Z :=
  foldr (fun pc acc => (if arrived pc then 0 else 1) + acc) 0 ts.

(** How many of the statements a schedule runs are run by a thread standing
    at a program point of the kind [at_pc]. *)
Fixpoint executed (at_pc : Pc -> bool) (sched : list nat) (σ : System) : nat :=
  match sched with
  | [] => 0
  | i :: rest =>
      match step i σ with
      | Some σ' =>
          ((if default false (at_pc <$> threads σ !! i) then 1 else 0)
           + executed at_pc rest σ')%nat
      | None => executed at_pc rest σ
      end
  end.

Definition at_increment (pc : Pc) : bool :=
  match pc with AtIncrement _ => true | _ => false end.

Definition at_reset (pc : Pc) : bool :=
  match pc with AtReset _ => true | _ => false end.

Definition at_next_epoch (pc : Pc) : bool :=
  match pc with AtNextEpoch _ => true | _ => false end.

(** How far a thread is from returning, in statements, the waiting loop
    counted once. *)
Definition rank (pc : Pc) : nat :=
  match pc with
  | AtAcquire1 => 12
  | AtReadEpoch => 11
  | AtDecrement _ => 10
  | AtRelease1 _ => 9
  | AtLoopEpoch _ | AtLoopCount _ | AtSleep _ => 8
  | AtAcquire2 _ => 7
  | AtCheck _ => 6
  | AtIncrement _ => 5
  | AtReset _ => 4
  | AtNextEpoch _ => 3
  | AtRelease2 _ => 2
  | AtAssert _ => 1
  | Returned _ | Raised _ => 0
  end%nat.

Definition distance (ts : list Pc) : nat := foldr (fun pc acc => (rank pc + acc)%nat) 0%nat ts.

(** *** The invariant of a barrier that [n] clients entered on the
    coordinator [c0] *)

(** The barrier has been passed. *)
Definition advanced (c0 c : SplitCoordinator) : Prop :=
  _cur_epoch c = _cur_epoch c0 + 1
  /\ _unfinished_clients_in_epoch c = _n c0
  /\ _next_epoch c = S (_next_epoch c0)
  /\ _output_iterator c = Some (gen_epochs_yield (_next_epoch c0)).

(** What holds of a thread where it stands. *)
Definition thread_ok (c0 c : SplitCoordinator) (waiting : Z) (pc : Pc) : Prop :=
  match pc with
  | AtAcquire1 | AtReadEpoch => True
  | AtDecrement s | AtRelease1 s | AtLoopEpoch s | AtLoopCount s | AtSleep s =>
      s = _cur_epoch c0
  | AtAcquire2 s | AtCheck s => s = _cur_epoch c0 /\ waiting = 0
  | AtIncrement s => s = _cur_epoch c0 /\ waiting = 0 /\ _cur_epoch c = _cur_epoch c0
  | AtReset s =>
      s = _cur_epoch c0 /\ _cur_epoch c = _cur_epoch c0 + 1
      /\ _unfinished_clients_in_epoch c = 0 /\ _next_epoch c = _next_epoch c0
  | AtNextEpoch s =>
      s = _cur_epoch c0 /\ _cur_epoch c = _cur_epoch c0 + 1
      /\ _unfinished_clients_in_epoch c = _n c0 /\ _next_epoch c = _next_epoch c0
  | AtRelease2 s | AtAssert s => s = _cur_epoch c0 /\ advanced c0 c
  | Returned v => v = _cur_epoch c0 + 1 /\ advanced c0 c
  | Raised _ => False
  end.

Record barrier_inv (c0 : SplitCoordinator) (n : nat) (σ : System) : Prop := {
  inv_length : length (threads σ) = n;
  inv_n : _n (coordinator σ) = _n c0;
  inv_next_bundle : _next_bundle (coordinator σ) = _next_bundle c0;
  inv_owner : forall i pc,
    threads σ !! i = Some pc -> holds_lock pc = true -> lock_owner σ = Some i;
  inv_owned : forall i,
    lock_owner σ = Some i -> exists pc, threads σ !! i = Some pc /\ holds_lock pc = true;
  inv_threads : forall i pc,
    threads σ !! i = Some pc -> thread_ok c0 (coordinator σ) (pending (threads σ)) pc;
  inv_before : _cur_epoch (coordinator σ) = _cur_epoch c0 ->
    _unfinished_clients_in_epoch (coordinator σ) = pending (threads σ)
    /\ _next_epoch (coordinator σ) = _next_epoch c0
    /\ _output_iterator (coordinator σ) = _output_iterator c0;
  inv_after : _cur_epoch (coordinator σ) <> _cur_epoch c0 ->
    _cur_epoch (coordinator σ) = _cur_epoch c0 + 1
    /\ pending (threads σ) = 0
    /\ (advanced c0 (coordinator σ)
        \/ exists i s, threads σ !! i = Some (AtReset s)
                       \/ threads σ !! i = Some (AtNextEpoch s))
}.

(** How a statement of thread [i] may change the owner of the lock. *)
Definition lock_step (l : option nat) (i : nat) (pc pc' : Pc) (l' : option nat) : Prop :=
  match holds_lock pc, holds_lock pc' with
  | false, false | true, true => l' = l
  | false, true => l = None /\ l' = Some i
  | true, false => l' = None
  end.

(** Whether the arrival counter has been reset since the barrier was
    entered on [c0]: the epoch has moved on and the counter is not zero. *)
Definition resets (c0 c : SplitCoordinator) : nat :=
  if decide (_cur_epoch c = _cur_epoch c0) then 0%nat
  else if decide (_unfinished_clients_in_epoch c = 0) then 0%nat else 1%nat.

(** Barrier after barrier: each schedule of [scheds] runs the [start_epoch]
    calls of the [n] clients on the coordinator the one before has left. *)
Fixpoint rounds (scheds : list (list nat)) (c : SplitCoordinator) (n : nat)
    : SplitCoordinator :=
  match scheds with
  | [] => c
  | sched :: rest => rounds rest (coordinator (run sched (start_epoch_calls c n))) n
  end.

(** Every schedule of [scheds] lets all the callers of its barrier return. *)
Fixpoint rounds_complete (scheds : list (list nat)) (c : SplitCoordinator) (n : nat)
    : Prop :=
  match scheds with
  | [] => True
  | sched :: rest =>
      all_returned (run sched (start_epoch_calls c n)) = true
      /\ rounds_complete rest (coordinator (run sched (start_epoch_calls c n))) n
  end.

End Coordinator.

End SplitCoordinator.

(** ** Concrete instances

    Simple blocks of numbered rows, eight bytes a row, with no schema, an
    operator whose inputs are never declared complete, and a pipeline runner
    that plays a script: for each output index, the results of its
    [get_next] calls in order, and [StopIteration] once the script is over. *)

Module Simple.

Definition accessor : BlockAccessor (list nat) := ListAccessor nat 8.

Definition metadata (n : Z) : BlockMetadata unit :=
  {| md_num_rows := Some n; md_size_bytes := Some (8 * n); md_schema := tt |}.

Definition block (n : nat) : Obj (list nat) unit := ObjBlock (seq 0 n).

Definition bundle (pairs : list (ObjectRef * Z)) : RefBundle unit :=
  {| blocks := map (fun p => (p.1, metadata p.2)) pairs; owns_blocks := true |}.

Definition never_completed : @LimitOperator.LimitOperator unit -> bool := fun _ => false.

Definition World := @LimitOperator.World (list nat) unit.

Definition world (limit : Z) (st : list (Obj (list nat) unit)) : World :=
  {| LimitOperator.self := LimitOperator.__init__ limit None;
     LimitOperator.object_store := st |}.

Definition add_input : RefBundle unit -> Z -> M World unit :=
  @LimitOperator.add_input (list nat) unit accessor never_completed.

Definition run : list LimitOperator.Call -> World -> World :=
  @LimitOperator.run (list nat) unit accessor never_completed.

Definition Runner := gmap Z (list (Outcome (RefBundle unit))).

Definition runner_get_next (it : Runner) (idx : Z) : Outcome (RefBundle unit) * Runner :=
  match it !! idx with
  | Some (r :: rest) => (r, <[idx := rest]> it)
  | _ => (Raise StopIteration, it)
  end.

Definition Coordinator := @SplitCoordinator.SplitCoordinator unit Runner.

Definition get : Z -> Z -> M Coordinator (option ObjectRef) :=
  @SplitCoordinator.get unit Runner runner_get_next.

(** Every epoch runs the same plan: blocks 0 and 2 go to index 0, blocks 1
    and 3 to index 1, one block a bundle. *)
Definition gen_epochs_yield (k : nat) : Runner :=
  {[ 0 := [Return (bundle [(0%nat, 1)]); Return (bundle [(2%nat, 1)])];
     1 := [Return (bundle [(1%nat, 1)]); Return (bundle [(3%nat, 1)])] ]}.

(** A coordinator in epoch [epoch] with the given leftover map and runner. *)
Definition coordinator (epoch : Z) (leftover : gmap Z (RefBundle unit)) (it : Runner)
    : Coordinator :=
  {| SplitCoordinator._n := 2;
     SplitCoordinator._next_bundle := leftover;
     SplitCoordinator._unfinished_clients_in_epoch := 2;
     SplitCoordinator._cur_epoch := epoch;
     SplitCoordinator._next_epoch := Z.to_nat (epoch + 1);
     SplitCoordinator._output_iterator := Some it |}.

Definition step : nat -> SplitCoordinator.System -> option SplitCoordinator.System :=
  @SplitCoordinator.step unit Runner gen_epochs_yield.

Definition run_sched : list nat -> SplitCoordinator.System -> SplitCoordinator.System :=
  @SplitCoordinator.run unit Runner gen_epochs_yield.

End Simple.

(** * Properties of the limit operator *)

Section LimitOperatorProperties.

Import LimitOperator.

Context {Block Schema : Type} `{!BlockAccessor Block}.
Context (completed : @LimitOperator Schema -> bool).

Local Abbreviation World := (@World Block Schema).
Local Abbreviation add_input_loop := (@add_input_loop Block Schema _).
Local Abbreviation add_input := (@add_input Block Schema _ completed).
Local Abbreviation get_next := (@get_next Block Schema).
Local Abbreviation run := (@run Block Schema _ completed).

Ltac unfold_monad :=
  unfold bind, ret, raise, read, update, assert in *; cbv beta iota zeta in *.

Lemma remote_slice_fn_self block metadata n (w : World) :
  self (remote_slice_fn block metadata n w).2 = self w.
Proof.
  unfold remote_slice_fn.
  destruct (object_store w !! block) as [[b| |]|]; reflexivity.
Qed.

Lemma ray_get_metadata_state r (w : World) : (ray_get_metadata r w).2 = w.
Proof.
  unfold ray_get_metadata.
  destruct (object_store w !! r) as [[| |]|]; reflexivity.
Qed.

Lemma add_input_loop_fixed pairs : forall out_blocks out_metadata (w : World),
  fixed_fields (self (add_input_loop pairs out_blocks out_metadata w).2)
  = fixed_fields (self w)
  /\ _buffer (self (add_input_loop pairs out_blocks out_metadata w).2)
     = _buffer (self w).
Proof.
  induction pairs as [|[block metadata] rest IH]; intros ob om w; simpl.
  - split; reflexivity.
  - destruct (md_num_rows metadata) as [n|]; [|split; reflexivity].
    unfold_monad.
    case_bool_decide.
    + match goal with |- context [add_input_loop rest ?a ?b ?w'] =>
        destruct (IH a b w') as [IH1 IH2] end.
      rewrite IH1, IH2. split; reflexivity.
    + pose proof (remote_slice_fn_self block metadata
                    (_limit (self w) - _consumed_rows (self w)) w) as Hs.
      destruct (remote_slice_fn block metadata _ w) as [[[r1 r2]|e] w1];
        simpl in *; [|rewrite Hs; split; reflexivity].
      pose proof (ray_get_metadata_state r2 w1) as Hg.
      destruct (ray_get_metadata r2 w1) as [[m|e] w2]; simpl in *; subst w2;
        rewrite Hs; split; reflexivity.
Qed.

Lemma add_input_fixed refs input_index (w : World) :
  fixed_fields (self (add_input refs input_index w).2) = fixed_fields (self w).
Proof.
  unfold LimitOperator.add_input. unfold_monad.
  destruct (completed (self w)); simpl; [reflexivity|].
  case_bool_decide; simpl; [|reflexivity].
  destruct (_limit_reached (self w)); simpl; [reflexivity|].
  destruct (add_input_loop_fixed (blocks refs) [] [] w) as [Hf _].
  destruct (add_input_loop (blocks refs) [] [] w) as [[[ob om]|e] w1];
    simpl in *; exact Hf.
Qed.

Lemma get_next_fixed (w : World) :
  fixed_fields (self (get_next w).2) = fixed_fields (self w).
Proof.
  unfold LimitOperator.get_next. destruct (_buffer (self w)); reflexivity.
Qed.

Lemma run_fixed calls : forall w : World,
  fixed_fields (self (run calls w)) = fixed_fields (self w).
Proof.
  induction calls as [|c calls IH]; intros w; simpl; [reflexivity|].
  unfold LimitOperator.run in *. simpl. rewrite IH.
  destruct c; simpl; [apply add_input_fixed | apply get_next_fixed].
Qed.

(** Once [_limit_reached()] holds, [add_input] changes nothing. *)
Lemma add_input_limit_reached refs (w : World) :
  completed (self w) = false ->
  _limit_reached (self w) = true ->
  add_input refs 0 w = (Return tt, w).
Proof.
  intros Hc Hr. unfold LimitOperator.add_input, _limit_reached in *. unfold_monad.
  rewrite Hc. simpl. rewrite Hr. reflexivity.
Qed.

(** With row counts in every metadata and handles that resolve, the loop
    of [add_input] ends without raising, and keeps the queue. *)
Lemma add_input_loop_returns pairs : forall out_blocks out_metadata (w : World),
  rows_known pairs ->
  handles_resolve (object_store w) pairs ->
  exists ob om w',
    add_input_loop pairs out_blocks out_metadata w = (Return (ob, om), w')
    /\ _buffer (self w') = _buffer (self w)
    /\ (pairs = [] -> ob = out_blocks /\ om = out_metadata).
Proof.
  induction pairs as [|[block metadata] rest IH]; intros ob om w Hk Hh; simpl.
  - exists ob, om, w. repeat split; reflexivity.
  - apply Forall_cons in Hk as [[n Hn] Hk]. apply Forall_cons in Hh as [[b Hb] Hh].
    simpl in *. rewrite Hn. unfold_monad.
    case_bool_decide.
    + match goal with |- context [add_input_loop rest ?x ?y ?z] =>
        destruct (IH x y z Hk Hh) as (ob' & om' & w' & He & Hq & _) end.
      exists ob', om', w'. rewrite He. repeat split; [exact Hq | discriminate..].
    + unfold remote_slice_fn, ray_get_metadata, store_put. rewrite Hb. simpl.
      rewrite (list_lookup_middle _ [] _ _ eq_refl).
      eexists _, _, _. repeat split; discriminate.
Qed.

Lemma get_next_drain (q1 : list (RefBundle Schema)) : forall (w : World) q2,
  _buffer (self w) = q1 ++ q2 ->
  _buffer (self (run (replicate (length q1) CallGetNext) w)) = q2.
Proof.
  induction q1 as [|b q1 IH]; intros w q2 Hq; simpl in *; [exact Hq|].
  unfold LimitOperator.run in *. simpl.
  apply IH. unfold LimitOperator.get_next. rewrite Hq. reflexivity.
Qed.

Lemma logged_rows_app (ms : list (BlockMetadata Schema)) m :
  logged_rows (ms ++ [m]) = logged_rows ms + default 0 (md_num_rows m).
Proof.
  induction ms as [|m' ms IH]; simpl; [lia|].
  unfold logged_rows in *. simpl. rewrite IH. lia.
Qed.

Lemma total_rows_nonneg (pairs : list (ObjectRef * BlockMetadata Schema)) :
  rows_nonneg pairs -> 0 <= total_rows pairs.
Proof.
  induction 1 as [|[block metadata] rest (n & Hn & H0) _ IH]; simpl in *; [reflexivity|].
  unfold total_rows, logged_rows in *. simpl. rewrite Hn. simpl. lia.
Qed.

(** The rows one pass of the loop logs: all the rows of the bundle when they
    fit under the limit, else what was missing to the limit. *)
Lemma add_input_loop_rows pairs : forall out_blocks out_metadata (w : World),
  rows_nonneg pairs ->
  handles_resolve (object_store w) pairs ->
  _consumed_rows (self w) <= _limit (self w) ->
  exists ob om w',
    add_input_loop pairs out_blocks out_metadata w = (Return (ob, om), w')
    /\ logged_rows (_output_metadata (self w'))
       = logged_rows (_output_metadata (self w))
         + Z.min (_limit (self w) - _consumed_rows (self w)) (total_rows pairs)
    /\ logged_rows om
       = logged_rows out_metadata
         + Z.min (_limit (self w) - _consumed_rows (self w)) (total_rows pairs).
Proof.
  induction pairs as [|[block metadata] rest IH]; intros ob om w Hk Hh Hle; simpl.
  - exists ob, om, w. unfold total_rows. simpl. repeat split; lia.
  - pose proof (total_rows_nonneg rest) as Hrest.
    apply Forall_cons in Hk as [(n & Hn & H0) Hk]. apply Forall_cons in Hh as [[b Hb] Hh].
    specialize (Hrest Hk).
    simpl in *. rewrite Hn. unfold_monad.
    assert (Htot : total_rows ((block, metadata) :: rest) = n + total_rows rest)
      by (unfold total_rows, logged_rows; simpl; rewrite Hn; reflexivity).
    rewrite Htot.
    case_bool_decide.
    + match goal with |- context [add_input_loop rest ?x ?y ?z] =>
        destruct (IH x y z Hk Hh) as (ob' & om' & w' & He & Hl & Ho) end.
      { simpl. lia. }
      exists ob', om', w'. rewrite He. split; [reflexivity|].
      simpl in Hl, Ho. rewrite !logged_rows_app, Hn in *. simpl in *. lia.
    + unfold remote_slice_fn, ray_get_metadata, store_put. rewrite Hb. simpl.
      rewrite (list_lookup_middle _ [] _ _ eq_refl).
      eexists _, _, _. split; [reflexivity|].
      simpl. rewrite !logged_rows_app. simpl. lia.
Qed.

(** While no call has sliced ([_consumed_rows] is what the log holds), a
    call of [add_input] brings the rows forwarded to the smaller of the
    limit and the rows received: the row count is exact up to and
    including the first slice. *)
Lemma add_input_exact_before_slice (refs : RefBundle Schema) (w : World) :
  completed (self w) = false ->
  _consumed_rows (self w) = logged_rows (_output_metadata (self w)) ->
  _consumed_rows (self w) <= _limit (self w) ->
  rows_nonneg (blocks refs) ->
  handles_resolve (object_store w) (blocks refs) ->
  (add_input refs 0 w).1 = Return tt
  /\ logged_rows (_output_metadata (self (add_input refs 0 w).2))
     = Z.min (_limit (self w)) (_consumed_rows (self w) + total_rows (blocks refs)).
Proof.
  intros Hc Hlog Hle Hk Hh.
  pose proof (total_rows_nonneg (blocks refs) Hk) as Hnn.
  destruct (add_input_loop_rows (blocks refs) [] [] w Hk Hh Hle)
    as (ob & om & w1 & He & Hl & _).
  unfold LimitOperator.add_input, _limit_reached in *. unfold_monad.
  rewrite Hc. simpl. case_bool_decide; simpl.
  - split; [reflexivity|]. lia.
  - rewrite He. simpl. split; [reflexivity|]. rewrite Hl. lia.
Qed.

(** [num_outputs_total()] in terms of the operator's own flag: after any
    calls on an operator built with limit [limit] over an input whose
    [num_outputs_total()] was [estimate], it is [limit] when
    [_limit_reached()] holds, and otherwise [min(estimate, limit)] when the
    estimate was known and [None] when it was not.  The flag is
    [_consumed_rows >= _limit], which a boundary slice leaves false. *)
Lemma num_outputs_total_by_flag (limit : Z) (estimate : option Z)
    (st : ObjectStore Block Schema) (calls : list Call) :
  let op := self (run calls {| self := __init__ limit estimate; object_store := st |}) in
  num_outputs_total op
  = if _limit_reached op then Some limit
    else match estimate with
         | Some t => Some (Z.min t limit)
         | None => None
         end.
Proof.
  intros op.
  pose proof (run_fixed calls {| self := __init__ limit estimate; object_store := st |})
    as Hf.
  fold op in Hf. unfold fixed_fields in Hf. simpl in Hf.
  injection Hf as Hl Ht.
  unfold num_outputs_total. rewrite Hl, Ht. reflexivity.
Qed.

(** C10: an [add_input] call on an operator that is not completed and has
    not reached its limit, with a bundle whose metadata carry row counts and
    whose handles resolve, returns and appends exactly one bundle to the
    queue, with the flag of the incoming one; [has_next()] is then true;
    and when the incoming bundle has no block, the bundle appended has no
    block either and is what [get_next()] returns once the bundles queued
    before it are taken. *)
Theorem add_input_enqueues_one_bundle (refs : RefBundle Schema) (w : World) :
  completed (self w) = false ->
  _limit_reached (self w) = false ->
  rows_known (blocks refs) ->
  handles_resolve (object_store w) (blocks refs) ->
  exists w' out_refs,
    add_input refs 0 w = (Return tt, w')
    /\ _buffer (self w') = _buffer (self w) ++ [out_refs]
    /\ owns_blocks out_refs = owns_blocks refs
    /\ has_next (self w') = true
    /\ (blocks refs = [] ->
        blocks out_refs = []
        /\ exists w'',
             get_next (run (replicate (length (_buffer (self w))) CallGetNext) w')
             = (Return out_refs, w'')).
Proof.
  intros Hc Hr Hk Hh.
  destruct (add_input_loop_returns (blocks refs) [] [] w Hk Hh)
    as (ob & om & w1 & He & Hq & Hnil).
  unfold LimitOperator.add_input, _limit_reached in *. unfold_monad.
  rewrite Hc. simpl. rewrite Hr, He. simpl.
  eexists _, _. split; [reflexivity|]. simpl.
  rewrite Hq. split; [reflexivity|]. split; [reflexivity|]. split.
  { unfold has_next. simpl. rewrite length_app. simpl.
    apply bool_decide_eq_true. lia. }
  intros Hempty. split.
  - destruct (Hnil Hempty) as [-> ->]. reflexivity.
  - pose proof (get_next_drain (_buffer (self w))
                  (append_buffer {| blocks := zip ob om;
                                    owns_blocks := owns_blocks refs |} w1)
                  [{| blocks := zip ob om; owns_blocks := owns_blocks refs |}]) as Hd.
    simpl in Hd. rewrite Hq in Hd. specialize (Hd eq_refl).
    unfold LimitOperator.get_next at 1. rewrite Hd. eexists. reflexivity.
Qed.

End LimitOperatorProperties.

(** ** The operator on concrete runs *)

Section LimitOperatorRuns.

Import LimitOperator.

Lemma add_input_enqueues_one_bundle_witness :
  let refs := Simple.bundle [(0%nat, 3); (1%nat, 3)] in
  let w := Simple.world 4 [Simple.block 3; Simple.block 3] in
  exists w' out_refs,
    Simple.add_input refs 0 w = (Return tt, w')
    /\ _buffer (self w') = _buffer (self w) ++ [out_refs]
    /\ owns_blocks out_refs = owns_blocks refs
    /\ has_next (self w') = true
    /\ (blocks refs = [] ->
        blocks out_refs = []
        /\ exists w'',
             get_next (Simple.run (replicate (length (_buffer (self w))) CallGetNext) w')
             = (Return out_refs, w'')).
Proof.
  intros refs w.
  apply (@add_input_enqueues_one_bundle (list nat) unit Simple.accessor
           Simple.never_completed refs w).
  - reflexivity.
  - reflexivity.
  - repeat constructor; eexists; reflexivity.
  - repeat constructor; eexists; reflexivity.
Defined.

(** An empty bundle fed to a fresh operator: one bundle with no block is
    queued and [get_next()] hands it out. *)
Example add_input_empty_bundle :
  let w := (Simple.add_input (Simple.bundle []) 0 (Simple.world 3 [])).2 in
  has_next (self w) = true
  /\ (get_next w).1 = Return {| blocks := []; owns_blocks := true |}.
Proof. vm_compute. split; reflexivity. Qed.

(** C1 (the code departs from it): with limit 1 and two bundles of
    one two-row block each, the operator slices a row off both blocks, so
    the bundles it forwards carry 2 rows in all, where [min(1, 2 + 2)] is 1:
    the slicing branch leaves [_consumed_rows] as it was, and
    [_limit_reached()] stays false. *)
Theorem forwarded_rows_exceed_limit :
  let calls := [CallAddInput (Simple.bundle [(0%nat, 2)]) 0;
                CallAddInput (Simple.bundle [(1%nat, 2)]) 0] in
  let w := Simple.run calls (Simple.world 1 [Simple.block 2; Simple.block 2]) in
  logged_rows (map snd (forwarded (_buffer (self w)))) = 2
  /\ logged_rows (_output_metadata (self w)) = 2
  /\ Z.min 1 (2 + 2) = 1.
Proof. vm_compute. repeat split; reflexivity. Qed.

(** C2 (the code departs from it): with limit 7 and a bundle of three
    three-row blocks, the operator forwards 3, 3 and 1 rows, the last a
    slice stored as a new object with recomputed [num_rows] and
    [size_bytes]; but [_consumed_rows] is left at 6, not 7, and the next
    bundle is accepted: a second one-row slice is forwarded. *)
Theorem boundary_slice_keeps_consumed_rows :
  let st := [Simple.block 3; Simple.block 3; Simple.block 3; Simple.block 3] in
  let first := Simple.bundle [(0%nat, 3); (1%nat, 3); (2%nat, 3)] in
  let w1 := Simple.run [CallAddInput first 0] (Simple.world 7 st) in
  let w2 := Simple.run [CallAddInput (Simple.bundle [(3%nat, 3)]) 0] w1 in
  forwarded (_buffer (self w1))
  = [(0%nat, Simple.metadata 3); (1%nat, Simple.metadata 3); (4%nat, Simple.metadata 1)]
  /\ object_store w1 !! 4%nat = Some (ObjBlock [0%nat])
  /\ _consumed_rows (self w1) = 6
  /\ _limit_reached (self w1) = false
  /\ forwarded (_buffer (self w2))
     = forwarded (_buffer (self w1)) ++ [(6%nat, Simple.metadata 1)].
Proof. vm_compute. repeat split; reflexivity. Qed.

(** C3 (the code departs from it): with limit 2, a three-row block
    is sliced to 2 rows, so the rows forwarded equal the limit; the next
    [add_input] is still not a no-op: it queues another bundle and logs
    another metadata. *)
Theorem add_input_after_slice_is_not_noop :
  let st := [Simple.block 3; Simple.block 3] in
  let w1 := (Simple.add_input (Simple.bundle [(0%nat, 3)]) 0 (Simple.world 2 st)).2 in
  let w2 := (Simple.add_input (Simple.bundle [(1%nat, 3)]) 0 w1).2 in
  logged_rows (map snd (forwarded (_buffer (self w1)))) = _limit (self w1)
  /\ length (_buffer (self w1)) = 1%nat
  /\ length (_buffer (self w2)) = 2%nat
  /\ length (_output_metadata (self w1)) = 1%nat
  /\ length (_output_metadata (self w2)) = 2%nat
  /\ w2 <> w1.
Proof.
  vm_compute. repeat split; try reflexivity. discriminate.
Qed.

(** C4 (the code departs from it): with limit 1 and three bundles of
    one two-row block each (handles 0, 1 and 2), every forwarded block is a
    slice: the handles forwarded are the new objects 3, 5 and 7, one row
    each, and none of the incoming handles. *)
Theorem several_sliced_blocks_forwarded :
  let st := [Simple.block 2; Simple.block 2; Simple.block 2] in
  let calls := [CallAddInput (Simple.bundle [(0%nat, 2)]) 0;
                CallAddInput (Simple.bundle [(1%nat, 2)]) 0;
                CallAddInput (Simple.bundle [(2%nat, 2)]) 0] in
  let w := Simple.run calls (Simple.world 1 st) in
  forwarded (_buffer (self w))
  = [(3%nat, Simple.metadata 1); (5%nat, Simple.metadata 1); (7%nat, Simple.metadata 1)]
  /\ map (fun p => object_store w !! p.1) (forwarded (_buffer (self w)))
     = [Some (ObjBlock [0%nat]); Some (ObjBlock [0%nat]); Some (ObjBlock [0%nat])]
  /\ length st = 3%nat.
Proof. vm_compute. repeat split; reflexivity. Qed.

(** C9 (the code departs from it): with limit 7 and a bundle of three
    three-row blocks the operator forwards 3 + 3 + 1 = 7 rows, so the limit
    has been reached and no further row may be forwarded; yet
    [_consumed_rows] is 6, [_limit_reached()] is false, and
    [num_outputs_total()] still returns the estimate made at construction:
    2 when the input's estimate was 2, [None] when it was unknown, and not
    the limit 7. *)
Theorem num_outputs_total_after_slice :
  let st := [Simple.block 3; Simple.block 3; Simple.block 3] in
  let refs := Simple.bundle [(0%nat, 3); (1%nat, 3); (2%nat, 3)] in
  let known : Simple.World := {| self := __init__ 7 (Some 2); object_store := st |} in
  let unknown : Simple.World := {| self := __init__ 7 None; object_store := st |} in
  let w1 := Simple.run [CallAddInput refs 0] known in
  let w2 := Simple.run [CallAddInput refs 0] unknown in
  logged_rows (map snd (forwarded (_buffer (self w1)))) = _limit (self w1)
  /\ logged_rows (map snd (forwarded (_buffer (self w2)))) = _limit (self w2)
  /\ _limit (self w1) = 7
  /\ _limit (self w2) = 7
  /\ _limit_reached (self w1) = false
  /\ _limit_reached (self w2) = false
  /\ num_outputs_total (self w1) = Some 2
  /\ num_outputs_total (self w2) = None.
Proof. vm_compute. repeat split; reflexivity. Qed.

End LimitOperatorRuns.

(** * Properties of the split coordinator: [get] *)

Section GetProperties.

Import SplitCoordinator.

Context {Schema Runner : Type}.
Context (runner_get_next : Runner -> Z -> Outcome (RefBundle Schema) * Runner).

Local Abbreviation Coordinator := (@SplitCoordinator Schema Runner).
Local Abbreviation get := (@get Schema Runner runner_get_next).
Local Abbreviation gets := (@gets Schema Runner runner_get_next).
Local Abbreviation output_iterator_get_next :=
  (@output_iterator_get_next Schema Runner runner_get_next).

Lemma pop_Some {A} (l rest : list A) (x : A) :
  pop l = Some (x, rest) -> l = rest ++ [x].
Proof.
  unfold pop. destruct (last l) as [y|] eqn:Hl; [|discriminate].
  intros [= <- <-]. apply last_Some in Hl as [l' ->].
  rewrite removelast_last. reflexivity.
Qed.

Lemma pop_None {A} (l : list A) : pop l = None -> l = [].
Proof.
  unfold pop. destruct (last l) eqn:Hl; [discriminate|].
  intros _. apply last_None. exact Hl.
Qed.

Lemma output_iterator_get_next_leftover idx (c : Coordinator) :
  _next_bundle (output_iterator_get_next idx c).2 = _next_bundle c
  /\ _cur_epoch (output_iterator_get_next idx c).2 = _cur_epoch c.
Proof.
  unfold SplitCoordinator.output_iterator_get_next.
  destruct (_output_iterator c) as [it|]; [|split; reflexivity].
  destruct (runner_get_next it idx). split; reflexivity.
Qed.

(** What a [get] call of the current epoch does, by the bundle it works on:
    the leftover of the index if there is one, else what the runner gives. *)
Lemma get_current_epoch idx (c : Coordinator) :
  get (_cur_epoch c) idx c
  = let '(r, c1) :=
      match _next_bundle c !! idx with
      | Some b => (Return b, c)
      | None => output_iterator_get_next idx c
      end in
    match r with
    | Return b =>
        match pop (blocks b) with
        | None => (Raise IndexError, c1)
        | Some ((block, _), rest) =>
            (Return (Some block),
             set_next_bundle
               (match rest with
                | [] => delete idx (_next_bundle c)
                | _ :: _ =>
                    <[idx := {| blocks := rest; owns_blocks := owns_blocks b |}]>
                      (_next_bundle c)
                end) c1)
        end
    | Raise StopIteration => (Return None, c1)
    | Raise e => (Raise e, c1)
    end.
Proof.
  unfold SplitCoordinator.get, except_StopIteration, bind, ret, raise, read, update.
  rewrite bool_decide_eq_false_2 by (intros H; apply H; reflexivity).
  cbv beta iota zeta.
  destruct (_next_bundle c !! idx) as [b|] eqn:Hm.
  - destruct (pop (blocks b)) as [[[block md] rest]|]; [|reflexivity].
    cbv beta iota zeta. destruct rest; simpl; [|reflexivity].
    unfold set_next_bundle. simpl. rewrite delete_insert_eq. reflexivity.
  - pose proof (output_iterator_get_next_leftover idx c) as [Hl _].
    destruct (output_iterator_get_next idx c) as [[b|e] c1]; simpl in *.
    + destruct (pop (blocks b)) as [[[block md] rest]|]; [|reflexivity].
      cbv beta iota zeta. destruct rest; simpl; rewrite Hl; [|reflexivity].
      unfold set_next_bundle. simpl. rewrite delete_insert_eq. reflexivity.
    + destruct e; reflexivity.
Qed.

Lemma get_stale idx epoch_id (c : Coordinator) :
  epoch_id <> _cur_epoch c -> get epoch_id idx c = (Raise invalid_epoch, c).
Proof.
  intros Hne.
  unfold SplitCoordinator.get, bind, raise, read.
  rewrite bool_decide_eq_true_2 by exact Hne. reflexivity.
Qed.

Lemma get_no_empty_leftover epoch_id idx (c : Coordinator) :
  no_empty_leftover c -> no_empty_leftover (get epoch_id idx c).2.
Proof.
  intros Hinv.
  destruct (decide (epoch_id = _cur_epoch c)) as [->|Hne];
    [|rewrite get_stale by exact Hne; exact Hinv].
  rewrite get_current_epoch.
  assert (Hc1 : forall r c1,
            match _next_bundle c !! idx with
            | Some b => (Return b, c)
            | None => output_iterator_get_next idx c
            end = (r, c1) -> _next_bundle c1 = _next_bundle c).
  { intros r c1. destruct (_next_bundle c !! idx).
    - intros [= _ <-]. reflexivity.
    - intros H. pose proof (output_iterator_get_next_leftover idx c) as [Hl _].
      rewrite H in Hl. exact Hl. }
  destruct (match _next_bundle c !! idx with
            | Some b => (Return b, c)
            | None => output_iterator_get_next idx c
            end) as [r c1] eqn:Hb.
  specialize (Hc1 r c1 eq_refl).
  assert (Hkeep : no_empty_leftover c1)
    by (intros j b Hj; rewrite Hc1 in Hj; exact (Hinv j b Hj)).
  destruct r as [b|e]; [|destruct e; exact Hkeep].
  destruct (pop (blocks b)) as [[[block md] rest]|]; [|exact Hkeep].
  intros j b' Hj. simpl in Hj.
  destruct rest as [|p rest].
  - destruct (decide (j = idx)) as [->|Hji].
    + rewrite lookup_delete_eq in Hj. discriminate.
    + rewrite lookup_delete_ne in Hj by congruence. exact (Hinv j b' Hj).
  - destruct (decide (j = idx)) as [->|Hji].
    + rewrite lookup_insert_eq in Hj. injection Hj as <-. discriminate.
    + rewrite lookup_insert_ne in Hj by congruence. exact (Hinv j b' Hj).
Qed.

Lemma gets_no_empty_leftover calls : forall c : Coordinator,
  no_empty_leftover c -> no_empty_leftover (gets calls c).
Proof.
  induction calls as [|call calls IH]; intros c Hinv; [exact Hinv|].
  unfold SplitCoordinator.gets in *. simpl.
  apply IH, get_no_empty_leftover, Hinv.
Qed.

(** C5: a [get] whose epoch id is not the coordinator's current epoch raises
    the invalid-epoch error and leaves the coordinator, its leftover map
    included, exactly as it was, whatever the leftover map holds for the
    index. *)
Theorem get_stale_epoch (epoch_id output_split_idx : Z) (c : Coordinator) :
  epoch_id <> _cur_epoch c ->
  get epoch_id output_split_idx c = (Raise invalid_epoch, c)
  /\ _next_bundle (get epoch_id output_split_idx c).2 = _next_bundle c.
Proof.
  intros Hne. rewrite get_stale by exact Hne. split; reflexivity.
Qed.

(** C7: a [get] that returns a block has taken the bundle of the index (its
    leftover, or else the runner's next bundle), returns the last block of
    that bundle's list, and leaves the map with the rest of the bundle at
    the index when a block remains and with no entry at the index when none
    does; the other entries are as they were.  The map never holds a bundle
    without blocks: that holds when the actor is built and is kept by every
    call of [get], whatever its outcome. *)
Theorem get_pops_tail_block (epoch_id output_split_idx : Z) (c c' : Coordinator)
    (block : ObjectRef) :
  get epoch_id output_split_idx c = (Return (Some block), c') ->
  (exists bundle c1 md rest,
     match _next_bundle c !! output_split_idx with
     | Some b => (Return b, c)
     | None => output_iterator_get_next output_split_idx c
     end = (Return bundle, c1)
     /\ blocks bundle = rest ++ [(block, md)]
     /\ (rest <> [] ->
         _next_bundle c' !! output_split_idx
         = Some {| blocks := rest; owns_blocks := owns_blocks bundle |})
     /\ (rest = [] -> _next_bundle c' !! output_split_idx = None)
     /\ (is_Some (_next_bundle c' !! output_split_idx) <-> rest <> [])
     /\ (forall j, j <> output_split_idx ->
                   _next_bundle c' !! j = _next_bundle c !! j))
  /\ no_empty_leftover (__init__ (_n c) : Coordinator)
  /\ forall calls, no_empty_leftover c -> no_empty_leftover (gets calls c).
Proof.
  intros Hget. split; [|split].
  - destruct (decide (epoch_id = _cur_epoch c)) as [->|Hne];
      [|rewrite get_stale in Hget by exact Hne; discriminate].
    rewrite get_current_epoch in Hget.
    assert (Hc1 : forall r c1,
              match _next_bundle c !! output_split_idx with
              | Some b => (Return b, c)
              | None => output_iterator_get_next output_split_idx c
              end = (r, c1) -> _next_bundle c1 = _next_bundle c).
    { intros r c1. destruct (_next_bundle c !! output_split_idx).
      - intros [= _ <-]. reflexivity.
      - intros H.
        pose proof (output_iterator_get_next_leftover output_split_idx c) as [Hl _].
        rewrite H in Hl. exact Hl. }
    destruct (match _next_bundle c !! output_split_idx with
              | Some b => (Return b, c)
              | None => output_iterator_get_next output_split_idx c
              end) as [r c1] eqn:Hb.
    specialize (Hc1 r c1 eq_refl).
    destruct r as [b|e]; [|destruct e; discriminate].
    destruct (pop (blocks b)) as [[[blk md] rest]|] eqn:Hpop; [|discriminate].
    injection Hget as <- <-. apply pop_Some in Hpop.
    exists b, c1, md, rest. split; [reflexivity|]. split; [exact Hpop|].
    simpl. destruct rest as [|p rest].
    + rewrite lookup_delete_eq. repeat split; try congruence.
      * intros [x Hx]. discriminate.
      * intros j Hj. rewrite lookup_delete_ne by congruence. reflexivity.
    + rewrite lookup_insert_eq. repeat split; try congruence.
      * intros _. eexists. reflexivity.
      * intros j Hj. rewrite lookup_insert_ne by congruence. reflexivity.
  - intros j b Hj. simpl in Hj. rewrite lookup_empty in Hj. discriminate.
  - intros calls. apply gets_no_empty_leftover.
Qed.

(** C8: when the index has no leftover and the runner's [get_next] raises,
    [get] returns [None] if the exception is [StopIteration] and raises the
    very same exception otherwise; either way only the runner has moved: the
    leftover map, at this index and at every other, is as it was. *)
Theorem get_runner_exhausted_or_failed (output_split_idx : Z) (c : Coordinator)
    (it it' : Runner) (e : Exn) :
  _next_bundle c !! output_split_idx = None ->
  _output_iterator c = Some it ->
  runner_get_next it output_split_idx = (Raise e, it') ->
  get (_cur_epoch c) output_split_idx c
  = (match e with StopIteration => Return None | _ => Raise e end,
     set_output_iterator (Some it') c)
  /\ _next_bundle (get (_cur_epoch c) output_split_idx c).2 = _next_bundle c.
Proof.
  intros Hm Hit Hpull.
  assert (Hget : get (_cur_epoch c) output_split_idx c
                 = (match e with StopIteration => Return None | _ => Raise e end,
                    set_output_iterator (Some it') c)).
  { rewrite get_current_epoch, Hm.
    unfold SplitCoordinator.output_iterator_get_next. rewrite Hit, Hpull.
    destruct e; reflexivity. }
  rewrite Hget. split; reflexivity.
Qed.

End GetProperties.


(** ** [get] on concrete coordinators *)

Section GetRuns.

Import SplitCoordinator.

(** The coordinator is in epoch 1 and still holds two blocks of epoch 0 for
    index 0; a read of epoch 0 is refused. *)
Lemma get_stale_epoch_witness :
  let c := Simple.coordinator 1 {[ 0 := Simple.bundle [(5%nat, 1); (6%nat, 1)] ]}
             (Simple.gen_epochs_yield 1) in
  Simple.get 0 0 c = (Raise invalid_epoch, c)
  /\ _next_bundle (Simple.get 0 0 c).2 = _next_bundle c.
Proof.
  intros c.
  apply (@get_stale_epoch unit Simple.Runner Simple.runner_get_next 0 0 c).
  vm_compute. discriminate.
Defined.

(** A leftover of two blocks: the second is handed out, the first stays. *)
Lemma get_pops_tail_block_witness :
  let c := Simple.coordinator 0 {[ 0 := Simple.bundle [(5%nat, 1); (6%nat, 1)] ]}
             (Simple.gen_epochs_yield 0) in
  let c' := Simple.coordinator 0 {[ 0 := Simple.bundle [(5%nat, 1)] ]}
              (Simple.gen_epochs_yield 0) in
  (exists bundle c1 md rest,
     match _next_bundle c !! 0 with
     | Some b => (Return b, c)
     | None => output_iterator_get_next Simple.runner_get_next 0 c
     end = (Return bundle, c1)
     /\ blocks bundle = rest ++ [(6%nat, md)]
     /\ (rest <> [] ->
         _next_bundle c' !! 0
         = Some {| blocks := rest; owns_blocks := owns_blocks bundle |})
     /\ (rest = [] -> _next_bundle c' !! 0 = None)
     /\ (is_Some (_next_bundle c' !! 0) <-> rest <> [])
     /\ (forall j, j <> 0 -> _next_bundle c' !! j = _next_bundle c !! j))
  /\ no_empty_leftover (__init__ (_n c) : Simple.Coordinator)
  /\ forall calls,
       no_empty_leftover c ->
       no_empty_leftover (gets Simple.runner_get_next calls c).
Proof.
  intros c c'.
  apply (@get_pops_tail_block unit Simple.Runner Simple.runner_get_next 0 0 c c' 6%nat).
  vm_compute. reflexivity.
Defined.

(** The runner fails for index 0 and is exhausted for index 1. *)
Lemma get_runner_exhausted_or_failed_witness :
  let it : Simple.Runner := {[ 0 := [Raise (PipelineError 7)] ]} in
  let c := Simple.coordinator 0 ∅ it in
  Simple.get (_cur_epoch c) 0 c
  = (Raise (PipelineError 7), set_output_iterator (Some (<[0 := []]> it)) c)
  /\ _next_bundle (Simple.get (_cur_epoch c) 0 c).2 = _next_bundle c.
Proof.
  intros it c.
  apply (@get_runner_exhausted_or_failed unit Simple.Runner Simple.runner_get_next
           0 c it (<[0 := []]> it) (PipelineError 7)).
  - reflexivity.
  - reflexivity.
  - vm_compute. reflexivity.
Defined.

Example get_runner_exhausted :
  let it : Simple.Runner := {[ 0 := [Raise (PipelineError 7)] ]} in
  let c := Simple.coordinator 0 ∅ it in
  Simple.get 0 1 c = (Return None, c).
Proof. vm_compute. reflexivity. Qed.

(** The second scenario of the design document: index 0 is given blocks 0
    and 2, one a bundle; its reader gets block 0, block 2, then nothing. *)
Example get_sequence_of_one_index :
  let c0 := Simple.coordinator 0 ∅ (Simple.gen_epochs_yield 0) in
  let r1 := Simple.get 0 0 c0 in
  let r2 := Simple.get 0 0 r1.2 in
  let r3 := Simple.get 0 0 r2.2 in
  (r1.1, r2.1, r3.1) = (Return (Some 0%nat), Return (Some 2%nat), Return None).
Proof. vm_compute. reflexivity. Qed.

(** A bundle of several blocks is handed out last block first. *)
Example get_drains_bundle_from_tail :
  let c0 := Simple.coordinator 0 {[ 0 := Simple.bundle [(5%nat, 1); (6%nat, 1)] ]}
              (Simple.gen_epochs_yield 0) in
  let r1 := Simple.get 0 0 c0 in
  let r2 := Simple.get 0 0 r1.2 in
  (r1.1, r2.1) = (Return (Some 6%nat), Return (Some 5%nat))
  /\ _next_bundle r2.2 = ∅.
Proof. vm_compute. split; reflexivity. Qed.

End GetRuns.

(** * Properties of the split coordinator: the barrier *)

Section BarrierProperties.

Import SplitCoordinator.

Context {Schema Runner : Type}.
Context (gen_epochs_yield : nat -> Runner).

Local Abbreviation Coordinator := (@SplitCoordinator Schema Runner).
Local Abbreviation System := (@System Schema Runner).
Local Abbreviation step := (@step Schema Runner gen_epochs_yield).
Local Abbreviation run := (@run Schema Runner gen_epochs_yield).
Local Abbreviation executed := (@executed Schema Runner gen_epochs_yield).
Local Abbreviation barrier_inv := (@barrier_inv Schema Runner gen_epochs_yield).
Local Abbreviation thread_ok := (@thread_ok Schema Runner gen_epochs_yield).
Local Abbreviation advanced := (@advanced Schema Runner gen_epochs_yield).
Local Abbreviation epoch_advanced := (@epoch_advanced Schema Runner gen_epochs_yield).

(** What a thread adds to [pending]. *)
Local Abbreviation weight pc := (if arrived pc then 0 else 1).

Lemma pending_nonneg (ts : list Pc) : 0 <= pending ts.
Proof.
  induction ts as [|pc ts IH]; simpl; [lia|]. destruct (arrived pc); lia.
Qed.

Lemma pending_insert (ts : list Pc) : forall i pc pc',
  ts !! i = Some pc ->
  pending (<[i := pc']> ts) = pending ts - weight pc + weight pc'.
Proof.
  induction ts as [|p ts IH]; intros [|i] pc pc' Hi; simpl in *; try discriminate.
  - injection Hi as ->. lia.
  - rewrite (IH i pc pc' Hi). lia.
Qed.

Lemma pending_lookup (ts : list Pc) : forall i pc,
  ts !! i = Some pc -> weight pc <= pending ts.
Proof.
  induction ts as [|p ts IH]; intros [|i] pc Hi; simpl in *; try discriminate.
  - injection Hi as ->. pose proof (pending_nonneg ts). lia.
  - specialize (IH i pc Hi). destruct (arrived p); lia.
Qed.

Lemma pending_zero (ts : list Pc) :
  pending ts = 0 -> Forall (fun pc => arrived pc = true) ts.
Proof.
  induction ts as [|p ts IH]; simpl; intros H; [constructor|].
  pose proof (pending_nonneg ts).
  destruct (arrived p) eqn:Hp; [|lia].
  constructor; [exact Hp | apply IH; lia].
Qed.

Lemma pending_positive (ts : list Pc) :
  pending ts <> 0 -> exists i pc, ts !! i = Some pc /\ arrived pc = false.
Proof.
  induction ts as [|p ts IH]; simpl; intros H; [lia|].
  destruct (arrived p) eqn:Hp.
  - destruct IH as (i & pc & Hi & Ha); [lia|]. exists (S i), pc. split; assumption.
  - exists 0%nat, p. split; [reflexivity | exact Hp].
Qed.

Lemma pending_replicate n : pending (replicate n AtAcquire1) = Z.of_nat n.
Proof. induction n as [|n IH]; simpl in *; [reflexivity | lia]. Qed.

Lemma distance_insert (ts : list Pc) : forall i pc pc',
  ts !! i = Some pc ->
  (distance (<[i := pc']> ts) + rank pc = distance ts + rank pc')%nat.
Proof.
  induction ts as [|p ts IH]; intros [|i] pc pc' Hi; simpl in *; try discriminate.
  - injection Hi as ->. lia.
  - specialize (IH i pc pc' Hi). lia.
Qed.

(** The general shape of a statement: thread [i] moves from [pc] to [pc'],
    the coordinator becomes [c'], the lock goes to [l']. *)
Lemma barrier_inv_transition c0 n (σ : System) i pc pc' (c' : Coordinator) l' :
  barrier_inv c0 n σ ->
  threads σ !! i = Some pc ->
  _n c' = _n (coordinator σ) ->
  _next_bundle c' = _next_bundle (coordinator σ) ->
  lock_step (lock_owner σ) i pc pc' l' ->
  thread_ok c0 c' (pending (threads σ) - weight pc + weight pc') pc' ->
  (forall pcj,
     (holds_lock pc = true -> holds_lock pcj = false) ->
     thread_ok c0 (coordinator σ) (pending (threads σ)) pcj ->
     thread_ok c0 c' (pending (threads σ) - weight pc + weight pc') pcj) ->
  (_cur_epoch c' = _cur_epoch c0 ->
     _unfinished_clients_in_epoch c' = pending (threads σ) - weight pc + weight pc'
     /\ _next_epoch c' = _next_epoch c0
     /\ _output_iterator c' = _output_iterator c0) ->
  (_cur_epoch c' <> _cur_epoch c0 ->
     _cur_epoch c' = _cur_epoch c0 + 1
     /\ pending (threads σ) - weight pc + weight pc' = 0
     /\ (advanced c0 c'
         \/ at_reset pc' = true \/ at_next_epoch pc' = true
         \/ exists j s, j <> i /\ (threads σ !! j = Some (AtReset s)
                                   \/ threads σ !! j = Some (AtNextEpoch s)))) ->
  barrier_inv c0 n
    {| coordinator := c'; lock_owner := l'; threads := <[i := pc']> (threads σ) |}.
Proof.
  intros Hinv Hi Hn Hnb Hlock Hself Hothers Hbefore Hafter.
  destruct Hinv as [Hlen Hn0 Hnb0 Hown Howned Hth Hbef Haft].
  assert (Hlt : (i < length (threads σ))%nat) by (eapply lookup_lt_Some; exact Hi).
  pose proof (pending_insert (threads σ) i pc pc' Hi) as Hp.
  constructor; simpl.
  - rewrite length_insert. exact Hlen.
  - congruence.
  - congruence.
  - intros j pcj Hj Hh.
    destruct (decide (j = i)) as [->|Hne].
    + rewrite list_lookup_insert_eq in Hj by exact Hlt. injection Hj as <-.
      unfold lock_step in Hlock. rewrite Hh in Hlock.
      destruct (holds_lock pc) eqn:Hpc.
      * rewrite Hlock. exact (Hown i pc Hi Hpc).
      * apply Hlock.
    + rewrite list_lookup_insert_ne in Hj by congruence.
      pose proof (Hown j pcj Hj Hh) as Hl.
      unfold lock_step in Hlock.
      destruct (holds_lock pc) eqn:Hpc.
      * pose proof (Hown i pc Hi Hpc). congruence.
      * destruct (holds_lock pc'); [destruct Hlock; congruence | congruence].
  - intros j Hl. subst l'.
    unfold lock_step in Hlock.
    destruct (decide (j = i)) as [->|Hne].
    + exists pc'. rewrite list_lookup_insert_eq by exact Hlt. split; [reflexivity|].
      destruct (holds_lock pc) eqn:Hpc, (holds_lock pc') eqn:Hpc';
        try reflexivity; try discriminate.
      * destruct (Howned i (eq_sym Hlock)) as (pc1 & H1 & H2). congruence.
    + rewrite list_lookup_insert_ne by congruence. apply Howned.
      destruct (holds_lock pc) eqn:Hpc, (holds_lock pc') eqn:Hpc';
        try discriminate; try (symmetry; exact Hlock).
      destruct Hlock as [_ Hl]. congruence.
  - intros j pcj Hj. rewrite Hp.
    destruct (decide (j = i)) as [->|Hne].
    + rewrite list_lookup_insert_eq in Hj by exact Hlt. injection Hj as <-. exact Hself.
    + rewrite list_lookup_insert_ne in Hj by congruence.
      apply Hothers; [|exact (Hth j pcj Hj)].
      intros Hpc. destruct (holds_lock pcj) eqn:Hh; [|reflexivity].
      pose proof (Hown j pcj Hj Hh). pose proof (Hown i pc Hi Hpc). congruence.
  - rewrite Hp. exact Hbefore.
  - rewrite Hp. intros Hc. destruct (Hafter Hc) as (H1 & H2 & H3).
    split; [exact H1|]. split; [exact H2|].
    destruct H3 as [H3|[H3|[H3|(j & s & Hne & H3)]]].
    + left; exact H3.
    + right. destruct pc'; try discriminate. eexists i, _. left.
      apply list_lookup_insert_eq. exact Hlt.
    + right. destruct pc'; try discriminate. eexists i, _. right.
      apply list_lookup_insert_eq. exact Hlt.
    + right. exists j, s. rewrite list_lookup_insert_ne by congruence. exact H3.
Qed.


Ltac unfold_advanced := unfold SplitCoordinator.advanced in *; simpl in *.

Ltac solve_other_threads :=
  let pcj := fresh "pcj" in
  let Hh := fresh "Hh" in
  let Hok := fresh "Hok" in
  intros pcj Hh Hok; try specialize (Hh eq_refl);
  destruct pcj; simpl in *; try discriminate; unfold_advanced;
  intuition (try lia; try congruence).

(** The last premise of [barrier_inv_transition] for a statement that
    writes nothing shared, from the same fact before the statement. *)
Ltac solve_after Haft :=
  let j := fresh "j" in
  let s := fresh "s" in
  let H1 := fresh "H" in
  let H2 := fresh "H" in
  let H3 := fresh "H" in
  intros _;
  destruct Haft as (H1 & H2 & [H3 | (j & s & H3)]);
  (split; [exact H1|]); (split; [simpl; lia|]);
  [ left; exact H3
  | right; right; right; exists j, s; split;
    [ intros ->; destruct H3; congruence | exact H3 ] ].

Lemma barrier_inv_step c0 n (σ σ' : System) i :
  barrier_inv c0 n σ -> step i σ = Some σ' -> barrier_inv c0 n σ'.
Proof.
  intros Hinv Hstep.
  unfold SplitCoordinator.step in Hstep.
  destruct (threads σ !! i) as [pc|] eqn:Hi; [|discriminate].
  pose proof (pending_lookup (threads σ) i pc Hi) as Hw.
  pose proof (pending_nonneg (threads σ)) as Hp0.
  pose proof (inv_threads _ _ _ _ Hinv i pc Hi) as Hok.
  pose proof (inv_before _ _ _ _ Hinv) as Hbef.
  pose proof (inv_after _ _ _ _ Hinv) as Haft.
  pose proof (inv_n _ _ _ _ Hinv) as Hn.
  pose proof (inv_owner _ _ _ _ Hinv i pc Hi) as Hown.
  destruct (decide (_cur_epoch (coordinator σ) = _cur_epoch c0)) as [HE|HE];
    [specialize (Hbef HE); clear Haft | specialize (Haft HE); clear Hbef].
  all: destruct pc; simpl in Hok, Hw, Hown.
  all: try discriminate.
  all: unfold acquire, goto, release, assign in Hstep.
  all: try (destruct (lock_owner σ) as [o|] eqn:Hlk; [discriminate|]).
  all: try match type of Hstep with
            | context [_output_iterator ?c] => destruct (_output_iterator c) eqn:Hit
            end.
  all: injection Hstep as <-.
  all: eapply (barrier_inv_transition c0 n σ i _ _ _ _ Hinv Hi).
  all: try reflexivity.
  all: try (unfold lock_step; simpl; try rewrite Hlk; try (split; reflexivity); reflexivity).
  all: repeat case_bool_decide.
  all: try solve [solve_other_threads].
  all: try solve [simpl in *; unfold_advanced; intuition (try lia; try congruence)].
  all: try solve [solve_after Haft].
  (* Line 256 finds the epoch advanced: whoever advanced it has released
     the lock this thread now owns. *)
  split; [tauto|].
  destruct Haft as (_ & _ & [Hadv | (j & s & Hj)]); [exact Hadv|].
  assert (lock_owner σ = Some j) as Hlj
    by (destruct Hj as [Hj|Hj]; exact (inv_owner _ _ _ _ Hinv j _ Hj eq_refl)).
  specialize (Hown eq_refl).
  assert (j = i) as -> by congruence.
  destruct Hj; congruence.
Qed.


Lemma barrier_inv_init (c0 : Coordinator) n :
  _n c0 = Z.of_nat n ->
  _unfinished_clients_in_epoch c0 = _n c0 ->
  barrier_inv c0 n (start_epoch_calls c0 n).
Proof.
  intros Hn Hu. constructor; simpl.
  - apply length_replicate.
  - reflexivity.
  - reflexivity.
  - intros i pc Hi Hh. apply lookup_replicate in Hi as [-> _]. discriminate.
  - discriminate.
  - intros i pc Hi. apply lookup_replicate in Hi as [-> _]. exact I.
  - intros _. rewrite pending_replicate. repeat split; congruence.
  - intros H. contradiction.
Qed.

Lemma run_cons i sched (σ : System) :
  run (i :: sched) σ = run sched (default σ (step i σ)).
Proof. reflexivity. Qed.

Lemma run_step i sched (σ σ' : System) :
  step i σ = Some σ' -> run (i :: sched) σ = run sched σ'.
Proof. intros Hs. rewrite run_cons, Hs. reflexivity. Qed.

Lemma run_app sched1 sched2 (σ : System) :
  run (sched1 ++ sched2) σ = run sched2 (run sched1 σ).
Proof. apply foldl_app. Qed.

Lemma barrier_inv_run c0 n sched : forall σ : System,
  barrier_inv c0 n σ -> barrier_inv c0 n (run sched σ).
Proof.
  induction sched as [|i sched IH]; intros σ Hinv; [exact Hinv|].
  rewrite run_cons. apply IH.
  destruct (step i σ) as [σ'|] eqn:Hs; simpl; [|exact Hinv].
  eapply barrier_inv_step; eassumption.
Qed.

(** What one statement adds to the epoch id, to the number of runners taken
    from the generator, and to the resets of the arrival counter. *)
Lemma step_counts c0 n (σ σ' : System) i pc :
  (0 < n)%nat -> _n c0 = Z.of_nat n ->
  barrier_inv c0 n σ ->
  threads σ !! i = Some pc ->
  step i σ = Some σ' ->
  _cur_epoch (coordinator σ')
  = _cur_epoch (coordinator σ) + (if at_increment pc then 1 else 0)
  /\ _next_epoch (coordinator σ')
     = (_next_epoch (coordinator σ) + (if at_next_epoch pc then 1 else 0))%nat
  /\ resets c0 (coordinator σ')
     = (resets c0 (coordinator σ) + (if at_reset pc then 1 else 0))%nat.
Proof.
  intros Hpos Hn0 Hinv Hi Hstep.
  pose proof (inv_threads _ _ _ _ Hinv i pc Hi) as Hok.
  pose proof (inv_before _ _ _ _ Hinv) as Hbef.
  pose proof (inv_after _ _ _ _ Hinv) as Haft.
  pose proof (inv_n _ _ _ _ Hinv) as Hn.
  pose proof (pending_lookup (threads σ) i pc Hi) as Hw.
  unfold SplitCoordinator.step in Hstep. rewrite Hi in Hstep.
  unfold resets.
  destruct pc; simpl in Hok; try discriminate;
    unfold acquire, goto, release, assign in Hstep;
    try (destruct (lock_owner σ); [discriminate|]);
    injection Hstep as <-; simpl;
    repeat case_decide; repeat split; try lia.
  all: simpl in *; try lia; intuition (try lia; try congruence).
Qed.

Lemma executed_counts c0 n sched : forall σ : System,
  (0 < n)%nat -> _n c0 = Z.of_nat n ->
  barrier_inv c0 n σ ->
  _cur_epoch (coordinator (run sched σ))
  = _cur_epoch (coordinator σ) + Z.of_nat (executed at_increment sched σ)
  /\ _next_epoch (coordinator (run sched σ))
     = (_next_epoch (coordinator σ) + executed at_next_epoch sched σ)%nat
  /\ resets c0 (coordinator (run sched σ))
     = (resets c0 (coordinator σ) + executed at_reset sched σ)%nat.
Proof.
  induction sched as [|i sched IH]; intros σ Hpos Hn Hinv.
  - simpl. repeat split; lia.
  - rewrite run_cons. simpl.
    destruct (step i σ) as [σ'|] eqn:Hs; simpl; [|apply IH; assumption].
    destruct (threads σ !! i) as [pc|] eqn:Hi;
      [|unfold SplitCoordinator.step in Hs; rewrite Hi in Hs; discriminate].
    destruct (step_counts c0 n σ σ' i pc Hpos Hn Hinv Hi Hs) as (H1 & H2 & H3).
    destruct (IH σ' Hpos Hn (barrier_inv_step c0 n σ σ' i Hinv Hs)) as (I1 & I2 & I3).
    rewrite I1, I2, I3, H1, H2, H3. simpl.
    destruct (at_increment pc), (at_next_epoch pc), (at_reset pc);
      repeat split; lia.
Qed.


Lemma executed_no_thread at_pc sched : forall σ : System,
  threads σ = [] -> executed at_pc sched σ = 0%nat.
Proof.
  induction sched as [|i sched IH]; intros σ Hts; [reflexivity|].
  simpl. unfold SplitCoordinator.step. rewrite Hts. simpl. apply IH, Hts.
Qed.

(** *** Every caller can return *)

Lemma all_returned_false (ts : list Pc) :
  forallb returned ts = false ->
  exists i pc, ts !! i = Some pc /\ returned pc = false.
Proof.
  induction ts as [|p ts IH]; simpl; [discriminate|].
  destruct (returned p) eqn:Hp; simpl.
  - intros H. destruct (IH H) as (i & pc & Hi & Hr). exists (S i), pc. split; assumption.
  - intros _. exists 0%nat, p. split; [reflexivity | exact Hp].
Qed.

(** Outside the waiting loop a statement brings its thread nearer to its
    return. *)
Lemma step_distance (σ σ' : System) i pc :
  threads σ !! i = Some pc ->
  step i σ = Some σ' ->
  in_loop pc = false ->
  (distance (threads σ') < distance (threads σ))%nat.
Proof.
  intros Hi Hstep Hloop.
  unfold SplitCoordinator.step in Hstep. rewrite Hi in Hstep.
  destruct pc; try discriminate;
    unfold acquire, goto, release, assign in Hstep;
    try (destruct (lock_owner σ); [discriminate|]);
    injection Hstep as <-; simpl;
    match goal with
    | |- context [<[i := ?pc']> (threads σ)] =>
        pose proof (distance_insert (threads σ) i _ pc' Hi) as Hd
    end;
    simpl in Hd; repeat case_bool_decide; simpl in Hd; try lia.
  destruct (_output_iterator (coordinator σ)); simpl in Hd; lia.
Qed.

(** A thread that owns the lock, or finds it free, can run its statement. *)
Lemma step_enabled (σ : System) i pc :
  threads σ !! i = Some pc ->
  holds_lock pc = true \/ lock_owner σ = None ->
  match pc with Returned _ | Raised _ => False | _ => True end ->
  exists σ', step i σ = Some σ'.
Proof.
  intros Hi Hl Hpc. unfold SplitCoordinator.step. rewrite Hi.
  destruct pc; try contradiction; unfold acquire;
    try (eexists; reflexivity);
    destruct Hl as [Hl|Hl]; try discriminate; rewrite Hl; eexists; reflexivity.
Qed.

Lemma goto_goto (σ : System) i pc1 pc2 :
  goto i pc2 (goto i pc1 σ) = goto i pc2 σ.
Proof. unfold goto. simpl. rewrite list_insert_insert_eq. reflexivity. Qed.

Lemma goto_lookup (σ : System) i pc pc' :
  threads σ !! i = Some pc -> threads (goto i pc' σ) !! i = Some pc'.
Proof.
  intros Hi. simpl. apply list_lookup_insert_eq. eapply lookup_lt_Some, Hi.
Qed.

Lemma step_loop_epoch (σ : System) i s :
  threads σ !! i = Some (AtLoopEpoch s) ->
  step i σ
  = Some (goto i (if bool_decide (_cur_epoch (coordinator σ) = s)
                  then AtLoopCount s else AtAcquire2 s) σ).
Proof. intros Hi. unfold SplitCoordinator.step. rewrite Hi. reflexivity. Qed.

Lemma step_loop_count (σ : System) i s :
  threads σ !! i = Some (AtLoopCount s) ->
  step i σ
  = Some (goto i (if bool_decide (_unfinished_clients_in_epoch (coordinator σ) ≠ 0)
                  then AtSleep s else AtAcquire2 s) σ).
Proof. intros Hi. unfold SplitCoordinator.step. rewrite Hi. reflexivity. Qed.

Lemma step_sleep (σ : System) i s :
  threads σ !! i = Some (AtSleep s) ->
  step i σ = Some (goto i (AtLoopEpoch s) σ).
Proof. intros Hi. unfold SplitCoordinator.step. rewrite Hi. reflexivity. Qed.

(** A thread of the waiting loop leaves it within three statements when the
    loop condition is false: the epoch has moved on, or the counter is at
    zero. *)
Lemma loop_exit_epoch (σ : System) i s :
  threads σ !! i = Some (AtLoopEpoch s) ->
  (_cur_epoch (coordinator σ) = s -> _unfinished_clients_in_epoch (coordinator σ) = 0) ->
  exists sched, run sched σ = goto i (AtAcquire2 s) σ.
Proof.
  intros Hi Hcond.
  destruct (decide (_cur_epoch (coordinator σ) = s)) as [HE|HE].
  - exists [i; i].
    rewrite (run_step _ _ _ _ (step_loop_epoch σ i s Hi)).
    rewrite bool_decide_eq_true_2 by exact HE.
    rewrite (run_step _ _ _ _ (step_loop_count _ i s (goto_lookup σ i _ _ Hi))).
    rewrite bool_decide_eq_false_2
      by (simpl; rewrite (Hcond HE); intros H; apply H; reflexivity).
    apply goto_goto.
  - exists [i].
    rewrite (run_step _ _ _ _ (step_loop_epoch σ i s Hi)).
    rewrite bool_decide_eq_false_2 by exact HE. reflexivity.
Qed.

Lemma loop_exit_sleep (σ : System) i s :
  threads σ !! i = Some (AtSleep s) ->
  (_cur_epoch (coordinator σ) = s -> _unfinished_clients_in_epoch (coordinator σ) = 0) ->
  exists sched, run sched σ = goto i (AtAcquire2 s) σ.
Proof.
  intros Hi Hcond.
  destruct (loop_exit_epoch (goto i (AtLoopEpoch s) σ) i s (goto_lookup σ i _ _ Hi) Hcond)
    as [sched Hrun].
  exists (i :: sched).
  rewrite (run_step _ _ _ _ (step_sleep σ i s Hi)), Hrun. apply goto_goto.
Qed.

Lemma loop_exit_count (σ : System) i s :
  threads σ !! i = Some (AtLoopCount s) ->
  (_cur_epoch (coordinator σ) = s -> _unfinished_clients_in_epoch (coordinator σ) = 0) ->
  exists sched, run sched σ = goto i (AtAcquire2 s) σ.
Proof.
  intros Hi Hcond.
  destruct (decide (_unfinished_clients_in_epoch (coordinator σ) = 0)) as [Hu|Hu].
  - exists [i].
    rewrite (run_step _ _ _ _ (step_loop_count σ i s Hi)).
    rewrite bool_decide_eq_false_2 by (rewrite Hu; intros H; apply H; reflexivity).
    reflexivity.
  - destruct (loop_exit_sleep (goto i (AtSleep s) σ) i s (goto_lookup σ i _ _ Hi) Hcond)
      as [sched Hrun].
    exists (i :: sched).
    rewrite (run_step _ _ _ _ (step_loop_count σ i s Hi)).
    rewrite bool_decide_eq_true_2 by exact Hu.
    rewrite Hrun. apply goto_goto.
Qed.

(** While a caller has not returned, some schedule brings the callers
    nearer to their return. *)
Lemma barrier_progress c0 n (σ : System) :
  barrier_inv c0 n σ ->
  all_returned σ = false ->
  exists sched, (distance (threads (run sched σ)) < distance (threads σ))%nat.
Proof.
  intros Hinv Hnot.
  assert (Hmove : forall i pc, threads σ !! i = Some pc ->
            holds_lock pc = true \/ lock_owner σ = None ->
            match pc with Returned _ | Raised _ => False | _ => True end ->
            in_loop pc = false ->
            exists sched,
              (distance (threads (run sched σ)) < distance (threads σ))%nat).
  { intros i pc Hi Hl Hpc Hloop.
    destruct (step_enabled σ i pc Hi Hl Hpc) as [σ' Hs].
    exists [i]. rewrite (run_step _ _ _ _ Hs).
    exact (step_distance σ σ' i pc Hi Hs Hloop). }
  destruct (lock_owner σ) as [j|] eqn:Hlk.
  - (* The owner of the lock moves. *)
    destruct (inv_owned _ _ _ _ Hinv j Hlk) as (pc & Hj & Hh).
    apply (Hmove j pc Hj); [left; exact Hh | destruct pc; try discriminate; exact I
                           | destruct pc; try discriminate; reflexivity].
  - destruct (decide (pending (threads σ) = 0)) as [Hp|Hp].
    + (* Everyone has arrived: a thread that has not returned moves on. *)
      apply all_returned_false in Hnot as (i & pc & Hi & Hr).
      pose proof (inv_threads _ _ _ _ Hinv i pc Hi) as Hok.
      pose proof (inv_before _ _ _ _ Hinv) as Hbef.
      destruct (in_loop pc) eqn:Hloop.
      * assert (Hcond : forall s, s = _cur_epoch c0 ->
                  _cur_epoch (coordinator σ) = s ->
                  _unfinished_clients_in_epoch (coordinator σ) = 0).
        { intros s -> HE. destruct (Hbef HE) as [-> _]. exact Hp. }
        assert (exists sched s, run sched σ = goto i (AtAcquire2 s) σ)
          as (sched & s & Hrun).
        { destruct pc; try discriminate; simpl in Hok.
          - destruct (loop_exit_epoch σ i _ Hi (Hcond _ Hok)) as [sched H].
            exists sched, starting_epoch. exact H.
          - destruct (loop_exit_count σ i _ Hi (Hcond _ Hok)) as [sched H].
            exists sched, starting_epoch. exact H.
          - destruct (loop_exit_sleep σ i _ Hi (Hcond _ Hok)) as [sched H].
            exists sched, starting_epoch. exact H. }
        exists sched. rewrite Hrun. simpl.
        pose proof (distance_insert (threads σ) i pc (AtAcquire2 s) Hi) as Hd.
        destruct pc; try discriminate; simpl in Hd; lia.
      * apply (Hmove i pc Hi); [right; reflexivity | | exact Hloop].
        destruct pc; try discriminate; try exact I. exact Hok.
    + (* Someone has not arrived: it is waiting for the free lock. *)
      destruct (pending_positive (threads σ) Hp) as (i & pc & Hi & Ha).
      apply (Hmove i pc Hi); [right; reflexivity | destruct pc; try discriminate; exact I
                             | destruct pc; try discriminate; reflexivity].
Qed.

Lemma barrier_can_finish c0 n (m : nat) : forall σ : System,
  barrier_inv c0 n σ ->
  (distance (threads σ) < m)%nat ->
  exists sched, all_returned (run sched σ) = true.
Proof.
  induction m as [|m IH]; intros σ Hinv Hm; [lia|].
  destruct (all_returned σ) eqn:Hall.
  - exists []. exact Hall.
  - destruct (barrier_progress c0 n σ Hinv Hall) as [sched1 Hd].
    destruct (IH (run sched1 σ) (barrier_inv_run c0 n sched1 σ Hinv)) as [sched2 H2];
      [lia|].
    exists (sched1 ++ sched2). rewrite run_app. exact H2.
Qed.


(** C6: [n] clients call [start_epoch] on a coordinator [c0] whose arrival
    counter stands at [n], and their statements interleave in any order
    [sched].  Then, at every moment: a call that has returned has returned
    [_cur_epoch c0 + 1], and none has raised; a call that has left the
    waiting loop, and so any call that has returned, finds that all [n] have
    run the decrement of line 236; and lines 257 (the epoch id goes up), 258
    (the counter goes back to [n]) and 259 (a runner is taken from the
    generator) have each been run at most once.  Once all have returned,
    each of the three lines has been run exactly once, the coordinator is
    [c0] with the epoch id one higher, the counter at [n] and the new
    runner, and the lock is free.  And from every moment on, some schedule
    lets all callers return. *)
Theorem barrier_start_epoch (c0 : Coordinator) (n : nat) (sched : list nat) :
  _n c0 = Z.of_nat n ->
  _unfinished_clients_in_epoch c0 = _n c0 ->
  let σ0 := start_epoch_calls c0 n in
  let σ := run sched σ0 in
  (forall i pc, threads σ !! i = Some pc ->
     match pc with
     | Returned v => v = _cur_epoch c0 + 1
     | Raised _ => False
     | _ => True
     end)
  /\ (forall i pc, threads σ !! i = Some pc -> past_loop pc = true ->
        Forall (fun pc' => arrived pc' = true) (threads σ))
  /\ (executed at_increment sched σ0 <= 1
      /\ executed at_reset sched σ0 <= 1
      /\ executed at_next_epoch sched σ0 <= 1)%nat
  /\ ((0 < n)%nat -> all_returned σ = true ->
      executed at_increment sched σ0 = 1%nat
      /\ executed at_reset sched σ0 = 1%nat
      /\ executed at_next_epoch sched σ0 = 1%nat
      /\ coordinator σ = epoch_advanced c0
      /\ lock_owner σ = None)
  /\ exists sched', all_returned (run sched' σ) = true.
Proof.
  intros Hn Hu σ0 σ.
  pose proof (barrier_inv_init c0 n Hn Hu) as Hinv0. fold σ0 in Hinv0.
  pose proof (barrier_inv_run c0 n sched σ0 Hinv0) as Hinv. fold σ in Hinv.
  pose proof (inv_before _ _ _ _ Hinv) as Hbef.
  pose proof (inv_after _ _ _ _ Hinv) as Haft.
  assert (Hcounts :
    (0 < n)%nat ->
    _cur_epoch (coordinator σ) = _cur_epoch c0 + Z.of_nat (executed at_increment sched σ0)
    /\ _next_epoch (coordinator σ)
       = (_next_epoch c0 + executed at_next_epoch sched σ0)%nat
    /\ resets c0 (coordinator σ) = executed at_reset sched σ0).
  { intros Hpos.
    destruct (executed_counts c0 n sched σ0 Hpos Hn Hinv0) as (H1 & H2 & H3).
    fold σ in H1, H2, H3. simpl in H1, H2, H3.
    unfold resets in H3 at 2. simpl in H3.
    rewrite decide_True in H3 by reflexivity.
    repeat split; assumption. }
  split; [|split; [|split; [|split]]].
  - intros i pc Hi. pose proof (inv_threads _ _ _ _ Hinv i pc Hi) as Hok.
    destruct pc; simpl in Hok; try exact I; tauto.
  - intros i pc Hi Hpast. apply pending_zero.
    pose proof (inv_threads _ _ _ _ Hinv i pc Hi) as Hok.
    destruct (decide (_cur_epoch (coordinator σ) = _cur_epoch c0)) as [HE|HE];
      [|apply (Haft HE)].
    destruct pc; try discriminate; simpl in Hok; unfold SplitCoordinator.advanced in Hok;
      try tauto; lia.
  - destruct n as [|n].
    + rewrite !executed_no_thread by reflexivity. lia.
    + destruct Hcounts as (H1 & H2 & H3); [lia|].
      assert (Hnext : _next_epoch (coordinator σ) = _next_epoch c0
                      \/ _next_epoch (coordinator σ) = S (_next_epoch c0)).
      { destruct (decide (_cur_epoch (coordinator σ) = _cur_epoch c0)) as [HE|HE].
        - left. apply (Hbef HE).
        - destruct (Haft HE) as (_ & _ & [Hadv | (j & s & Hj)]).
          + right. apply Hadv.
          + left. destruct Hj as [Hj|Hj];
              pose proof (inv_threads _ _ _ _ Hinv j _ Hj) as Hok; simpl in Hok; tauto. }
      assert (Hcur : _cur_epoch (coordinator σ) = _cur_epoch c0
                     \/ _cur_epoch (coordinator σ) = _cur_epoch c0 + 1).
      { destruct (decide (_cur_epoch (coordinator σ) = _cur_epoch c0)) as [HE|HE];
          [left; exact HE | right; apply (Haft HE)]. }
      assert (Hres : (resets c0 (coordinator σ) <= 1)%nat)
        by (unfold resets; repeat case_decide; lia).
      lia.
  - intros Hpos Hall.
    destruct Hcounts as (H1 & H2 & H3); [exact Hpos|].
    assert (Hlock : lock_owner σ = None).
    { destruct (lock_owner σ) as [j|] eqn:Hlk; [|reflexivity].
      destruct (inv_owned _ _ _ _ Hinv j Hlk) as (pc & Hj & Hh).
      unfold all_returned in Hall. rewrite forallb_forall in Hall.
      assert (returned pc = true) as Hr
        by (apply Hall, list_elem_of_In, list_elem_of_lookup; exists j; exact Hj).
      destruct pc; discriminate. }
    assert (Hadv : advanced c0 (coordinator σ)).
    { destruct (threads σ !! 0%nat) as [pc|] eqn:H0.
      - unfold all_returned in Hall. rewrite forallb_forall in Hall.
        assert (returned pc = true) as Hr
          by (apply Hall, list_elem_of_In, list_elem_of_lookup; exists 0%nat; exact H0).
        pose proof (inv_threads _ _ _ _ Hinv 0%nat pc H0) as Hok.
        destruct pc; try discriminate. apply Hok.
      - apply lookup_ge_None in H0. rewrite (inv_length _ _ _ _ Hinv) in H0. lia. }
    destruct Hadv as (A1 & A2 & A3 & A4).
    assert (Hnz : _n c0 <> 0) by lia.
    unfold resets in H3. rewrite decide_False in H3 by lia.
    rewrite decide_False in H3 by lia.
    repeat split; try lia; [|exact Hlock].
    pose proof (inv_n _ _ _ _ Hinv) as B1.
    pose proof (inv_next_bundle _ _ _ _ Hinv) as B2.
    unfold SplitCoordinator.epoch_advanced, SplitCoordinator.next_epoch. simpl.
    destruct (coordinator σ); simpl in *. congruence.
  - apply (barrier_can_finish c0 n (S (distance (threads σ))) σ Hinv). lia.
Qed.

End BarrierProperties.

(** ** The barrier on concrete schedules *)

Section BarrierRuns.

Import SplitCoordinator.

(** Two clients on a new coordinator; the first runs alone as far as it can
    (it ends up in the waiting loop), then the second, then the first again. *)
Lemma barrier_start_epoch_witness :
  let c0 : Simple.Coordinator := __init__ 2 in
  let sched := replicate 7 0%nat ++ replicate 14 1%nat ++ replicate 7 0%nat in
  let σ0 := start_epoch_calls c0 2 in
  let σ := Simple.run_sched sched σ0 in
  (forall i pc, threads σ !! i = Some pc ->
     match pc with
     | Returned v => v = _cur_epoch c0 + 1
     | Raised _ => False
     | _ => True
     end)
  /\ (forall i pc, threads σ !! i = Some pc -> past_loop pc = true ->
        Forall (fun pc' => arrived pc' = true) (threads σ))
  /\ (executed Simple.gen_epochs_yield at_increment sched σ0 <= 1
      /\ executed Simple.gen_epochs_yield at_reset sched σ0 <= 1
      /\ executed Simple.gen_epochs_yield at_next_epoch sched σ0 <= 1)%nat
  /\ ((0 < 2)%nat -> all_returned σ = true ->
      executed Simple.gen_epochs_yield at_increment sched σ0 = 1%nat
      /\ executed Simple.gen_epochs_yield at_reset sched σ0 = 1%nat
      /\ executed Simple.gen_epochs_yield at_next_epoch sched σ0 = 1%nat
      /\ coordinator σ = epoch_advanced Simple.gen_epochs_yield c0
      /\ lock_owner σ = None)
  /\ exists sched', all_returned (Simple.run_sched sched' σ) = true.
Proof.
  intros c0 sched σ0 σ.
  apply (@barrier_start_epoch unit Simple.Runner Simple.gen_epochs_yield c0 2%nat sched).
  - reflexivity.
  - reflexivity.
Defined.

(** The same schedule, run: both calls return 0, the epoch after -1. *)
Example barrier_two_clients :
  let c0 : Simple.Coordinator := __init__ 2 in
  let sched := replicate 7 0%nat ++ replicate 14 1%nat ++ replicate 7 0%nat in
  let σ := Simple.run_sched sched (start_epoch_calls c0 2) in
  threads σ = [Returned 0; Returned 0]
  /\ _cur_epoch (coordinator σ) = 0
  /\ _unfinished_clients_in_epoch (coordinator σ) = 2
  /\ _next_epoch (coordinator σ) = 1%nat
  /\ lock_owner σ = None.
Proof. vm_compute. repeat split; reflexivity. Qed.

(** The first client alone cannot pass: it waits in the loop, whatever the
    number of its turns. *)
Example barrier_one_client_waits :
  let c0 : Simple.Coordinator := __init__ 2 in
  let σ := Simple.run_sched (replicate 50 0%nat) (start_epoch_calls c0 2) in
  Forall (fun pc => in_loop pc = true \/ pc = AtAcquire1) (threads σ)
  /\ _cur_epoch (coordinator σ) = -1.
Proof.
  vm_compute. split; [|reflexivity].
  constructor; [left; reflexivity|]. constructor; [right; reflexivity|]. constructor.
Qed.

End BarrierRuns.

(** * Further properties of the limit operator *)

Section LimitOperatorFurther.

Import LimitOperator.

Context {Block Schema : Type} `{!BlockAccessor Block}.
Context (completed : @LimitOperator Schema -> bool).

Local Abbreviation World := (@World Block Schema).
Local Abbreviation add_input_loop := (@add_input_loop Block Schema _).
Local Abbreviation add_input := (@add_input Block Schema _ completed).
Local Abbreviation get_next := (@get_next Block Schema).
Local Abbreviation get_nexts := (@get_nexts Block Schema).
Local Abbreviation run := (@run Block Schema _ completed).
Local Abbreviation feed := (@feed Block Schema _ completed).

Ltac unfold_monad :=
  unfold bind, ret, raise, read, update, assert in *; cbv beta iota zeta in *.

Lemma total_rows_cons block (metadata : BlockMetadata Schema) n rest :
  md_num_rows metadata = Some n ->
  total_rows ((block, metadata) :: rest) = n + total_rows rest.
Proof. intros Hn. unfold total_rows, logged_rows. simpl. rewrite Hn. reflexivity. Qed.

Lemma total_rows_rest_nonneg (pairs : list (ObjectRef * BlockMetadata Schema)) :
  rows_nonneg pairs -> 0 <= total_rows pairs.
Proof.
  induction 1 as [|[block metadata] rest (n & Hn & H0) _ IH]; [reflexivity|].
  simpl in Hn. rewrite (total_rows_cons _ _ n) by exact Hn. lia.
Qed.

Lemma forward_all_nil (w : World) : forward_all [] w = w.
Proof.
  unfold forward_all, total_rows. simpl. rewrite Z.add_0_r, app_nil_r.
  destruct w as [[] ?]. reflexivity.
Qed.

Lemma forward_all_cons block (metadata : BlockMetadata Schema) n rest (w : World) :
  md_num_rows metadata = Some n ->
  forward_all rest
    (append_output_metadata metadata
       (set_consumed_rows (_consumed_rows (self w) + n) w))
  = forward_all ((block, metadata) :: rest) w.
Proof.
  intros Hn. unfold forward_all. simpl.
  rewrite (total_rows_cons block metadata n rest Hn), <- app_assoc, Z.add_assoc.
  reflexivity.
Qed.

(** The loop over pairs that all fit under the limit forwards them one by
    one and goes on with what follows them. *)
Lemma add_input_loop_fits pre : forall rest out_blocks out_metadata (w : World),
  rows_nonneg pre ->
  _consumed_rows (self w) + total_rows pre <= _limit (self w) ->
  add_input_loop (pre ++ rest) out_blocks out_metadata w
  = add_input_loop rest (out_blocks ++ map fst pre) (out_metadata ++ map snd pre)
      (forward_all pre w).
Proof.
  induction pre as [|[block metadata] pre IH]; intros rest ob om w Hk Hfit.
  - simpl. rewrite !app_nil_r, forward_all_nil. reflexivity.
  - apply Forall_cons in Hk as [(n & Hn & H0) Hk]. simpl in Hn.
    pose proof (total_rows_rest_nonneg pre Hk) as Hpre.
    rewrite (total_rows_cons _ _ n) in Hfit by exact Hn.
    simpl. rewrite Hn. unfold_monad.
    rewrite bool_decide_eq_true_2 by lia.
    rewrite IH; [|exact Hk|simpl; lia].
    rewrite (forward_all_cons block metadata n pre w Hn), <- !app_assoc.
    reflexivity.
Qed.

Lemma zip_fst_snd_map {A B} (l : list (A * B)) : zip (map fst l) (map snd l) = l.
Proof.
  induction l as [|[a b] l IH]; simpl; [reflexivity|]. rewrite IH. reflexivity.
Qed.

(** X1: a bundle whose rows all fit under the limit is forwarded as it is:
    the queued bundle is the incoming one, no object is created, the rows
    are added to [_consumed_rows] and the metadata to the log. *)
Theorem add_input_passes_through (refs : RefBundle Schema) (w : World) :
  completed (self w) = false ->
  _consumed_rows (self w) < _limit (self w) ->
  rows_nonneg (blocks refs) ->
  _consumed_rows (self w) + total_rows (blocks refs) <= _limit (self w) ->
  add_input refs 0 w = (Return tt, append_buffer refs (forward_all (blocks refs) w)).
Proof.
  intros Hc Hlt Hk Hfit.
  unfold LimitOperator.add_input, _limit_reached. unfold_monad.
  rewrite Hc. simpl. rewrite bool_decide_eq_false_2 by lia.
  pose proof (add_input_loop_fits (blocks refs) [] [] [] w Hk Hfit) as Hloop.
  rewrite app_nil_r in Hloop. rewrite Hloop. simpl.
  rewrite zip_fst_snd_map. destruct refs. reflexivity.
Qed.

(** X2: when a metadata of the bundle has no row count and the pairs before
    it fit under the limit, [add_input] raises [AssertionError] and queues
    nothing, but the pairs before it stay counted in [_consumed_rows] and
    logged in [_output_metadata]. *)
Theorem add_input_missing_row_count (refs : RefBundle Schema) (w : World)
    pre block metadata post :
  completed (self w) = false ->
  _consumed_rows (self w) < _limit (self w) ->
  blocks refs = pre ++ (block, metadata) :: post ->
  md_num_rows metadata = None ->
  rows_nonneg pre ->
  _consumed_rows (self w) + total_rows pre <= _limit (self w) ->
  add_input refs 0 w = (Raise AssertionError, forward_all pre w)
  /\ _buffer (self (forward_all pre w)) = _buffer (self w).
Proof.
  intros Hc Hlt Hb Hn Hk Hfit. split; [|reflexivity].
  unfold LimitOperator.add_input, _limit_reached. unfold_monad.
  rewrite Hc. simpl. rewrite bool_decide_eq_false_2 by lia.
  rewrite Hb, (add_input_loop_fits pre _ [] [] w Hk Hfit).
  simpl. rewrite Hn. reflexivity.
Qed.


Lemma snd_zip_same_length {A B} (l : list A) : forall k : list B,
  length l = length k -> map snd (zip l k) = k.
Proof.
  induction l as [|a l IH]; intros [|b k] Hlen; simpl in *; try discriminate.
  - reflexivity.
  - rewrite IH by lia. reflexivity.
Qed.

Lemma zip_snoc {A B} (l : list A) : forall (k : list B) a b,
  length l = length k -> zip (l ++ [a]) (k ++ [b]) = zip l k ++ [(a, b)].
Proof.
  induction l as [|x l IH]; intros [|y k] a b Hlen; simpl in *; try discriminate.
  - reflexivity.
  - rewrite IH by lia. reflexivity.
Qed.

(** What the loop adds to its two local lists it adds to the log. *)
Lemma add_input_loop_outputs pairs : forall out_blocks out_metadata (w : World) ob om w',
  add_input_loop pairs out_blocks out_metadata w = (Return (ob, om), w') ->
  exists eb em,
    ob = out_blocks ++ eb /\ om = out_metadata ++ em
    /\ length eb = length em
    /\ _output_metadata (self w') = _output_metadata (self w) ++ em
    /\ (length eb <= length pairs)%nat.
Proof.
  induction pairs as [|[block metadata] rest IH]; intros ob0 om0 w ob om w' Hloop;
    simpl in Hloop.
  - injection Hloop as <- <- <-. exists [], []. rewrite !app_nil_r.
    repeat split; reflexivity.
  - destruct (md_num_rows metadata) as [n|]; [|discriminate].
    unfold_monad.
    case_bool_decide.
    + apply IH in Hloop as (eb & em & -> & -> & Hlen & Hlog & Hle).
      exists (block :: eb), (metadata :: em). simpl in *.
      rewrite <- !app_assoc in *. simpl in *.
      repeat split; try reflexivity; try lia; assumption.
    + unfold remote_slice_fn, ray_get_metadata, store_put in Hloop.
      destruct (object_store w !! block) as [[b| |]|]; simpl in Hloop;
        rewrite (list_lookup_middle _ [] _ _ eq_refl) in Hloop;
        try discriminate.
      injection Hloop as <- <- <-.
      eexists [_], [_]. repeat split; simpl; lia.
Qed.

(** X3: a call of [add_input] that returns, on an operator that had not
    reached its limit, logs exactly the metadata of the bundle it queues, in
    the same order; the bundle has the flag of the incoming one and no more
    pairs than it. *)
Theorem add_input_logs_what_it_queues (refs : RefBundle Schema) (input_index : Z)
    (w w' : World) :
  add_input refs input_index w = (Return tt, w') ->
  _limit_reached (self w) = false ->
  exists out_refs,
    _buffer (self w') = _buffer (self w) ++ [out_refs]
    /\ _output_metadata (self w') = _output_metadata (self w) ++ map snd (blocks out_refs)
    /\ owns_blocks out_refs = owns_blocks refs
    /\ (length (blocks out_refs) <= length (blocks refs))%nat.
Proof.
  intros Hadd Hr.
  unfold LimitOperator.add_input, _limit_reached in *. unfold_monad.
  destruct (completed (self w)); simpl in Hadd; [discriminate|].
  destruct (bool_decide (input_index = 0)); simpl in Hadd; [|discriminate].
  rewrite Hr in Hadd.
  destruct (add_input_loop_fixed (blocks refs) [] [] w) as [_ Hq].
  destruct (add_input_loop (blocks refs) [] [] w) as [[[ob om]|e] w1] eqn:Hloop;
    [|discriminate].
  injection Hadd as <-.
  apply add_input_loop_outputs in Hloop as (eb & em & -> & -> & Hlen & Hlog & Hle).
  simpl in *. eexists. split; [rewrite Hq; reflexivity|]. simpl.
  rewrite snd_zip_same_length by exact Hlen.
  repeat split; [exact Hlog|].
  rewrite length_zip_with. lia.
Qed.

(** The loop never counts past the limit. *)
Lemma add_input_loop_consumed pairs : forall out_blocks out_metadata (w : World),
  _consumed_rows (self w) <= _limit (self w) ->
  _consumed_rows (self (add_input_loop pairs out_blocks out_metadata w).2)
  <= _limit (self (add_input_loop pairs out_blocks out_metadata w).2).
Proof.
  induction pairs as [|[block metadata] rest IH]; intros ob om w Hle; simpl.
  - exact Hle.
  - destruct (md_num_rows metadata) as [n|]; [|exact Hle].
    unfold_monad.
    case_bool_decide.
    + apply IH. simpl. lia.
    + pose proof (remote_slice_fn_self block metadata
                    (_limit (self w) - _consumed_rows (self w)) w) as Hs.
      destruct (remote_slice_fn block metadata _ w) as [[[r1 r2]|e] w1];
        simpl in *; [|rewrite Hs; exact Hle].
      pose proof (ray_get_metadata_state r2 w1) as Hg.
      destruct (ray_get_metadata r2 w1) as [[m|e] w2]; simpl in *; subst w2;
        rewrite Hs; exact Hle.
Qed.

Lemma add_input_consumed refs input_index (w : World) :
  _consumed_rows (self w) <= Z.max 0 (_limit (self w)) ->
  _consumed_rows (self (add_input refs input_index w).2)
  <= Z.max 0 (_limit (self (add_input refs input_index w).2)).
Proof.
  intros Hle.
  unfold LimitOperator.add_input, _limit_reached. unfold_monad.
  destruct (completed (self w)); simpl; [exact Hle|].
  case_bool_decide; simpl; [|exact Hle].
  case_bool_decide; simpl; [exact Hle|].
  assert (Hlt : _consumed_rows (self w) <= _limit (self w)) by lia.
  pose proof (add_input_loop_consumed (blocks refs) [] [] w Hlt) as Hloop.
  destruct (add_input_loop (blocks refs) [] [] w) as [[[ob om]|e] w1];
    simpl in *; lia.
Qed.

Lemma run_consumed calls : forall w : World,
  _consumed_rows (self w) <= Z.max 0 (_limit (self w)) ->
  _consumed_rows (self (run calls w)) <= Z.max 0 (_limit (self (run calls w))).
Proof.
  induction calls as [|c calls IH]; intros w Hw; [exact Hw|].
  unfold LimitOperator.run in *. simpl. apply IH.
  destruct c; simpl.
  - apply add_input_consumed, Hw.
  - unfold LimitOperator.get_next. destruct (_buffer (self w)); exact Hw.
Qed.

(** X4: whatever is fed to an operator built with limit [limit], and
    whatever the calls raise, [_consumed_rows] never exceeds the limit (nor
    leaves 0 when the limit is negative). *)
Theorem consumed_rows_bounded (limit : Z) (estimate : option Z)
    (st : ObjectStore Block Schema) (calls : list Call) :
  _consumed_rows
    (self (run calls {| self := __init__ limit estimate; object_store := st |}))
  <= Z.max 0 limit.
Proof.
  pose proof (run_fixed completed calls
                {| self := __init__ limit estimate; object_store := st |}) as Hf.
  unfold fixed_fields in Hf. simpl in Hf. injection Hf as Hl _.
  pose proof (run_consumed calls
                {| self := __init__ limit estimate; object_store := st |}) as Hc.
  rewrite Hl in Hc. apply Hc. simpl. lia.
Qed.

(** X5: an operator whose limit is zero or negative forwards nothing, ever:
    no call changes it or the object store. *)
Theorem nonpositive_limit_forwards_nothing (limit : Z) (estimate : option Z)
    (st : ObjectStore Block Schema) (calls : list Call) :
  limit <= 0 ->
  run calls {| self := __init__ limit estimate; object_store := st |}
  = {| self := __init__ limit estimate; object_store := st |}.
Proof.
  intros Hl. induction calls as [|c calls IH]; [reflexivity|].
  unfold LimitOperator.run in *. simpl.
  replace (do_call completed c {| self := __init__ limit estimate; object_store := st |})
    with {| self := __init__ limit estimate; object_store := st |}; [exact IH|].
  destruct c; simpl; [|reflexivity].
  unfold LimitOperator.add_input, _limit_reached. unfold_monad. simpl.
  destruct (completed (__init__ limit estimate)); simpl; [reflexivity|].
  case_bool_decide; simpl; [|reflexivity].
  rewrite bool_decide_eq_true_2 by lia. reflexivity.
Qed.

(** X6: [get_next] hands out the queued bundles oldest first, and raises
    [IndexError] once the queue is empty, when [has_next()] is false. *)
Theorem get_nexts_fifo (w : World) :
  get_nexts (S (length (_buffer (self w)))) w
  = (map Return (_buffer (self w)) ++ [Raise IndexError], set_buffer [] w)
  /\ has_next (self (set_buffer [] w)) = false
  /\ (has_next (self w) = true <-> _buffer (self w) <> []).
Proof.
  split; [|split].
  - remember (_buffer (self w)) as q eqn:Hq. revert w Hq.
    induction q as [|b q IH]; intros w Hq.
    + simpl. unfold LimitOperator.get_next. rewrite <- Hq.
      unfold set_buffer. rewrite Hq. destruct w as [[] ?]. reflexivity.
    + cbn [length LimitOperator.get_nexts]. unfold LimitOperator.get_next at 1.
      rewrite <- Hq.
      specialize (IH (set_buffer q w) eq_refl).
      cbn [length LimitOperator.get_nexts] in IH. rewrite IH. reflexivity.
  - reflexivity.
  - unfold has_next. destruct (_buffer (self w)); simpl.
    + split; [discriminate | intros H; contradiction].
    + split; [discriminate | intros _; reflexivity].
Qed.


Lemma logged_rows_app_list (ms ms' : list (BlockMetadata Schema)) :
  logged_rows (ms ++ ms') = logged_rows ms + logged_rows ms'.
Proof.
  induction ms as [|m ms IH]; simpl; [reflexivity|].
  unfold logged_rows in *. simpl. rewrite IH. lia.
Qed.

(** Bundles that fit under the limit together are all counted and logged,
    and leave the object store alone. *)
Lemma feed_fitting bundles : forall w : World,
  (forall op, completed op = false) ->
  Forall (fun refs => rows_nonneg (blocks refs)) bundles ->
  _consumed_rows (self w) = logged_rows (_output_metadata (self w)) ->
  _consumed_rows (self w) + bundles_rows bundles <= _limit (self w) ->
  _consumed_rows (self (feed bundles w)) = _consumed_rows (self w) + bundles_rows bundles
  /\ logged_rows (_output_metadata (self (feed bundles w)))
     = _consumed_rows (self (feed bundles w))
  /\ _limit (self (feed bundles w)) = _limit (self w)
  /\ object_store (feed bundles w) = object_store w.
Proof.
  induction bundles as [|refs bundles IH]; intros w Hc Hk Hlog Hfit.
  - unfold LimitOperator.feed, LimitOperator.run. simpl.
    repeat split; try reflexivity; lia.
  - apply Forall_cons in Hk as [Hk1 Hk].
    pose proof (total_rows_rest_nonneg (blocks refs) Hk1) as H1.
    assert (Hrest : 0 <= bundles_rows bundles).
    { clear -Hk. induction Hk as [|r l Hr _ IHl]; simpl; [lia|].
      pose proof (total_rows_rest_nonneg (blocks r) Hr). lia. }
    simpl in Hfit.
    unfold LimitOperator.feed, LimitOperator.run in *. simpl.
    destruct (decide (_consumed_rows (self w) < _limit (self w))) as [Hlt|Hge].
    + assert (Hadd : add_input refs 0 w
                     = (Return tt, append_buffer refs (forward_all (blocks refs) w))).
      { unfold LimitOperator.add_input, _limit_reached. unfold_monad.
        rewrite (Hc _). simpl. rewrite bool_decide_eq_false_2 by lia.
        pose proof (add_input_loop_fits (blocks refs) [] [] [] w Hk1) as Hloop.
        rewrite app_nil_r in Hloop. rewrite Hloop by lia. simpl.
        rewrite zip_fst_snd_map. destruct refs. reflexivity. }
      rewrite Hadd. simpl.
      destruct (IH (append_buffer refs (forward_all (blocks refs) w)) Hc Hk) as (A & B & C & D).
      * simpl. rewrite logged_rows_app_list. unfold total_rows in *. lia.
      * simpl. lia.
      * simpl in *. repeat split; try assumption; lia.
    + rewrite (add_input_limit_reached completed refs w (Hc _))
        by (unfold _limit_reached; apply bool_decide_eq_true; lia).
      simpl.
      destruct (IH w Hc Hk Hlog) as (A & B & C & D); [lia|].
      repeat split; try assumption; lia.
Qed.

(** X7: when the operator is fed bundles of which only the last may cross
    the limit, the rows it has forwarded in the end are the smaller of the
    limit and the rows it was fed. *)
Theorem feed_exact_up_to_crossing_bundle (limit : Z) (estimate : option Z)
    (st : ObjectStore Block Schema) (bundles : list (RefBundle Schema))
    (last_refs : RefBundle Schema) :
  (forall op, completed op = false) ->
  0 <= limit ->
  Forall (fun refs => rows_nonneg (blocks refs)) bundles ->
  rows_nonneg (blocks last_refs) ->
  handles_resolve st (blocks last_refs) ->
  bundles_rows bundles <= limit ->
  logged_rows
    (_output_metadata
       (self (feed (bundles ++ [last_refs])
                {| self := __init__ limit estimate; object_store := st |})))
  = Z.min limit (bundles_rows (bundles ++ [last_refs])).
Proof.
  intros Hc Hlim Hk Hlast Hres Hfit.
  set (w0 := {| self := __init__ limit estimate; object_store := st |}).
  destruct (feed_fitting bundles w0 Hc Hk eq_refl) as (A & B & C & D);
    [simpl; lia|].
  assert (Hrows : bundles_rows (bundles ++ [last_refs])
                  = bundles_rows bundles + total_rows (blocks last_refs)).
  { clear. induction bundles as [|r l IH]; simpl; [lia|]. rewrite IH. lia. }
  unfold LimitOperator.feed in *. rewrite map_app.
  unfold LimitOperator.run in *. rewrite foldl_app. simpl.
  fold (LimitOperator.run completed
          (map (fun refs => CallAddInput refs 0) bundles) w0) in *.
  set (w1 := LimitOperator.run completed
               (map (fun refs => CallAddInput refs 0) bundles) w0) in *.
  simpl in A, C.
  destruct (add_input_exact_before_slice completed last_refs w1 (Hc _)) as [_ Hex].
  - lia.
  - lia.
  - exact Hlast.
  - rewrite D. exact Hres.
  - rewrite Hex, Hrows, A, C. simpl. lia.
Qed.

Lemma truthful_app (st : ObjectStore Block Schema) pairs new :
  truthful st pairs -> truthful (st ++ new) pairs.
Proof.
  intros H. eapply Forall_impl; [exact H|].
  intros p (b & Hb & Hn). exists b. split; [|exact Hn].
  rewrite lookup_app_l; [exact Hb|]. eapply lookup_lt_Some, Hb.
Qed.

Lemma add_input_loop_truthful pairs : forall out_blocks out_metadata (w : World),
  slice_exact ->
  truthful (object_store w) pairs ->
  truthful (object_store w) (zip out_blocks out_metadata) ->
  length out_blocks = length out_metadata ->
  _consumed_rows (self w) <= _limit (self w) ->
  exists ob om w' new,
    add_input_loop pairs out_blocks out_metadata w = (Return (ob, om), w')
    /\ truthful (object_store w') (zip ob om)
    /\ object_store w' = object_store w ++ new.
Proof.
  induction pairs as [|[block metadata] rest IH];
    intros ob om w Hslice Hin Hout Hlen Hle; simpl.
  - exists ob, om, w, []. rewrite app_nil_r. repeat split; assumption.
  - apply Forall_cons in Hin as [(b & Hb & Hn) Hin]. simpl in Hb, Hn.
    rewrite Hn. unfold_monad.
    case_bool_decide.
    + match goal with |- context [add_input_loop rest ?x ?y ?z] =>
        destruct (IH x y z Hslice Hin) as (ob' & om' & w' & new & He & Ht & Hst) end.
      * simpl. rewrite zip_snoc by exact Hlen.
        apply Forall_app. split; [exact Hout|].
        constructor; [|constructor]. exists b. split; assumption.
      * rewrite !length_app. simpl. lia.
      * simpl. lia.
      * exists ob', om', w', new. rewrite He. repeat split; assumption.
    + unfold remote_slice_fn, ray_get_metadata, store_put. rewrite Hb. simpl.
      rewrite (list_lookup_middle _ [] _ _ eq_refl).
      eexists _, _, _, [_; _]. split; [reflexivity|]. simpl. split.
      * rewrite zip_snoc by exact Hlen.
        apply Forall_app. split.
        -- rewrite <- app_assoc. apply truthful_app. exact Hout.
        -- constructor; [|constructor]. eexists. simpl. split.
           ++ rewrite <- app_assoc. apply (list_lookup_middle _ _ _ _ eq_refl).
           ++ rewrite Hslice by lia. reflexivity.
      * rewrite <- app_assoc. reflexivity.
Qed.

(** X8: when the metadata of the incoming bundle give the true row counts of
    its blocks, so do the metadata of the bundle [add_input] queues, the
    sliced block's included; the call only adds objects to the store. *)
Theorem add_input_keeps_metadata_truthful (refs : RefBundle Schema) (w : World) :
  slice_exact ->
  completed (self w) = false ->
  _consumed_rows (self w) < _limit (self w) ->
  truthful (object_store w) (blocks refs) ->
  exists w' out_refs new,
    add_input refs 0 w = (Return tt, w')
    /\ _buffer (self w') = _buffer (self w) ++ [out_refs]
    /\ truthful (object_store w') (blocks out_refs)
    /\ object_store w' = object_store w ++ new.
Proof.
  intros Hslice Hc Hlt Hin.
  destruct (add_input_loop_truthful (blocks refs) [] [] w Hslice Hin)
    as (ob & om & w1 & new & He & Ht & Hst); [constructor|reflexivity|lia|].
  destruct (add_input_loop_fixed (blocks refs) [] [] w) as [_ Hq].
  rewrite He in Hq. simpl in Hq.
  unfold LimitOperator.add_input, _limit_reached. unfold_monad.
  rewrite Hc. simpl. rewrite bool_decide_eq_false_2 by lia.
  rewrite He. simpl.
  eexists _, _, new. split; [reflexivity|]. simpl. rewrite Hq.
  repeat split; assumption.
Qed.

End LimitOperatorFurther.

Section LimitOperatorFurtherRuns.

Import LimitOperator.

(** A list block sliced from its start has as many rows as were asked
    for. *)
Lemma list_slice_exact : @slice_exact (list nat) Simple.accessor.
Proof.
  intros b n [H0 Hn]. simpl in *. unfold list_slice.
  rewrite Z.sub_0_r, length_take, drop_0. lia.
Qed.

(** Two three-row blocks under a limit of 7. *)
Lemma add_input_passes_through_witness :
  let refs := Simple.bundle [(0%nat, 3); (1%nat, 3)] in
  let w := Simple.world 7 [Simple.block 3; Simple.block 3] in
  Simple.add_input refs 0 w
  = (Return tt, append_buffer refs (forward_all (blocks refs) w)).
Proof.
  intros refs w.
  apply (@add_input_passes_through (list nat) unit Simple.accessor
           Simple.never_completed refs w).
  - reflexivity.
  - reflexivity.
  - repeat constructor; eexists; (split; [reflexivity | simpl; lia]).
  - vm_compute. discriminate.
Defined.

(** The second metadata of the bundle has no row count. *)
Lemma add_input_missing_row_count_witness :
  let unknown : BlockMetadata unit :=
    {| md_num_rows := None; md_size_bytes := None; md_schema := tt |} in
  let refs : RefBundle unit :=
    {| blocks := [(0%nat, Simple.metadata 3); (1%nat, unknown)]; owns_blocks := true |} in
  let w := Simple.world 7 [Simple.block 3; Simple.block 3] in
  Simple.add_input refs 0 w
  = (Raise AssertionError, forward_all [(0%nat, Simple.metadata 3)] w)
  /\ _buffer (self (forward_all [(0%nat, Simple.metadata 3)] w)) = _buffer (self w).
Proof.
  intros unknown refs w.
  apply (@add_input_missing_row_count (list nat) unit Simple.accessor
           Simple.never_completed refs w [(0%nat, Simple.metadata 3)] 1%nat unknown []).
  - reflexivity.
  - reflexivity.
  - reflexivity.
  - reflexivity.
  - repeat constructor; eexists; (split; [reflexivity | simpl; lia]).
  - vm_compute. discriminate.
Defined.

(** A bundle of three three-row blocks under a limit of 7: the third block
    is sliced. *)
Lemma add_input_logs_what_it_queues_witness :
  let refs := Simple.bundle [(0%nat, 3); (1%nat, 3); (2%nat, 3)] in
  let w := Simple.world 7 [Simple.block 3; Simple.block 3; Simple.block 3] in
  let w' := (Simple.add_input refs 0 w).2 in
  exists out_refs,
    _buffer (self w') = _buffer (self w) ++ [out_refs]
    /\ _output_metadata (self w') = _output_metadata (self w) ++ map snd (blocks out_refs)
    /\ owns_blocks out_refs = owns_blocks refs
    /\ (length (blocks out_refs) <= length (blocks refs))%nat.
Proof.
  intros refs w w'.
  apply (@add_input_logs_what_it_queues (list nat) unit Simple.accessor
           Simple.never_completed refs 0 w w').
  - vm_compute. reflexivity.
  - reflexivity.
Defined.

(** A limit of 0: the bundle is not forwarded. *)
Lemma nonpositive_limit_forwards_nothing_witness :
  let st := [Simple.block 3] in
  let calls := [CallAddInput (Simple.bundle [(0%nat, 3)]) 0; CallGetNext] in
  Simple.run calls {| self := __init__ 0 (Some 5); object_store := st |}
  = {| self := __init__ 0 (Some 5); object_store := st |}.
Proof.
  intros st calls.
  apply (@nonpositive_limit_forwards_nothing (list nat) unit Simple.accessor
           Simple.never_completed 0 (Some 5) st calls).
  lia.
Defined.

(** Two bundles of three rows fit under the limit 7, the third crosses it. *)
Lemma feed_exact_up_to_crossing_bundle_witness :
  let st := [Simple.block 3; Simple.block 3; Simple.block 3] in
  let bundles := [Simple.bundle [(0%nat, 3)]; Simple.bundle [(1%nat, 3)]] in
  let last_refs := Simple.bundle [(2%nat, 3)] in
  logged_rows
    (_output_metadata
       (self (@feed (list nat) unit Simple.accessor Simple.never_completed
                (bundles ++ [last_refs])
                {| self := __init__ 7 None; object_store := st |})))
  = Z.min 7 (bundles_rows (bundles ++ [last_refs])).
Proof.
  intros st bundles last_refs.
  apply (@feed_exact_up_to_crossing_bundle (list nat) unit Simple.accessor
           Simple.never_completed 7 None st bundles last_refs).
  - intros op. reflexivity.
  - lia.
  - repeat constructor; eexists; (split; [reflexivity | simpl; lia]).
  - repeat constructor; eexists; (split; [reflexivity | simpl; lia]).
  - repeat constructor; eexists; reflexivity.
  - vm_compute. discriminate.
Defined.

(** A bundle of three three-row blocks under a limit of 7. *)
Lemma add_input_keeps_metadata_truthful_witness :
  let refs := Simple.bundle [(0%nat, 3); (1%nat, 3); (2%nat, 3)] in
  let w := Simple.world 7 [Simple.block 3; Simple.block 3; Simple.block 3] in
  exists w' out_refs new,
    Simple.add_input refs 0 w = (Return tt, w')
    /\ _buffer (self w') = _buffer (self w) ++ [out_refs]
    /\ @truthful (list nat) unit Simple.accessor (object_store w') (blocks out_refs)
    /\ object_store w' = object_store w ++ new.
Proof.
  intros refs w.
  apply (@add_input_keeps_metadata_truthful (list nat) unit Simple.accessor
           Simple.never_completed refs w).
  - exact list_slice_exact.
  - reflexivity.
  - reflexivity.
  - repeat constructor; eexists; (split; reflexivity).
Defined.

End LimitOperatorFurtherRuns.

(** * Further properties of the split coordinator: [get] and its reader *)

Section GetFurther.

Import SplitCoordinator.

Context {Schema Runner : Type}.
Context (runner_get_next : Runner -> Z -> Outcome (RefBundle Schema) * Runner).

Local Abbreviation Coordinator := (@SplitCoordinator Schema Runner).
Local Abbreviation get := (@get Schema Runner runner_get_next).
Local Abbreviation reads := (@reads Schema Runner runner_get_next).
Local Abbreviation yields := (@yields Schema Runner runner_get_next).
Local Abbreviation output_iterator_get_next :=
  (@output_iterator_get_next Schema Runner runner_get_next).
Local Abbreviation gen_blocks_start := (@gen_blocks_start Schema Runner runner_get_next).
Local Abbreviation gen_blocks_resume := (@gen_blocks_resume Schema Runner runner_get_next).
Local Abbreviation gen_blocks_take := (@gen_blocks_take Schema Runner runner_get_next).

(** What [get] does in the current epoch, with the epoch id given apart. *)
Lemma get_in_epoch epoch_id idx (c : Coordinator) :
  _cur_epoch c = epoch_id ->
  get epoch_id idx c
  = let '(r, c1) :=
      match _next_bundle c !! idx with
      | Some b => (Return b, c)
      | None => output_iterator_get_next idx c
      end in
    match r with
    | Return b =>
        match pop (blocks b) with
        | None => (Raise IndexError, c1)
        | Some ((block, _), rest) =>
            (Return (Some block),
             set_next_bundle
               (match rest with
                | [] => delete idx (_next_bundle c)
                | _ :: _ =>
                    <[idx := {| blocks := rest; owns_blocks := owns_blocks b |}]>
                      (_next_bundle c)
                end) c1)
        end
    | Raise StopIteration => (Return None, c1)
    | Raise e => (Raise e, c1)
    end.
Proof. intros <-. apply get_current_epoch. Qed.

Lemma pop_snoc {A} (l : list A) (x : A) : pop (l ++ [x]) = Some (x, l).
Proof. unfold pop. rewrite last_snoc, removelast_last. reflexivity. Qed.

Lemma set_next_bundle_same (c : Coordinator) : set_next_bundle (_next_bundle c) c = c.
Proof. destruct c. reflexivity. Qed.

(** X9: a [get] for one index, whatever it returns or raises, leaves the
    leftover entries of the other indices, the epoch id, the arrival counter
    and the generator of runners as they were. *)
Theorem get_frame (epoch_id output_split_idx : Z) (c : Coordinator) :
  let c' := (get epoch_id output_split_idx c).2 in
  (forall j, j <> output_split_idx -> _next_bundle c' !! j = _next_bundle c !! j)
  /\ _cur_epoch c' = _cur_epoch c
  /\ _unfinished_clients_in_epoch c' = _unfinished_clients_in_epoch c
  /\ _n c' = _n c
  /\ _next_epoch c' = _next_epoch c.
Proof.
  intros c'. subst c'.
  destruct (decide (epoch_id = _cur_epoch c)) as [->|Hne];
    [|rewrite get_stale by exact Hne; repeat split; reflexivity].
  rewrite get_current_epoch.
  assert (Hc1 : forall r c1,
            match _next_bundle c !! output_split_idx with
            | Some b => (Return b, c)
            | None => output_iterator_get_next output_split_idx c
            end = (r, c1) ->
            _next_bundle c1 = _next_bundle c /\ _cur_epoch c1 = _cur_epoch c
            /\ _unfinished_clients_in_epoch c1 = _unfinished_clients_in_epoch c
            /\ _n c1 = _n c /\ _next_epoch c1 = _next_epoch c).
  { intros r c1. destruct (_next_bundle c !! output_split_idx).
    - intros [= _ <-]. repeat split; reflexivity.
    - unfold SplitCoordinator.output_iterator_get_next.
      destruct (_output_iterator c) as [it|].
      + destruct (runner_get_next it output_split_idx). intros [= _ <-].
        repeat split; reflexivity.
      + intros [= _ <-]. repeat split; reflexivity. }
  destruct (match _next_bundle c !! output_split_idx with
            | Some b => (Return b, c)
            | None => output_iterator_get_next output_split_idx c
            end) as [r c1] eqn:Hb.
  destruct (Hc1 r c1 eq_refl) as (H1 & H2 & H3 & H4 & H5).
  assert (Hkeep : (forall j, j <> output_split_idx ->
                     _next_bundle c1 !! j = _next_bundle c !! j)
                  /\ _cur_epoch c1 = _cur_epoch c
                  /\ _unfinished_clients_in_epoch c1 = _unfinished_clients_in_epoch c
                  /\ _n c1 = _n c /\ _next_epoch c1 = _next_epoch c)
    by (repeat split; try assumption; intros j _; rewrite H1; reflexivity).
  destruct r as [b|e]; [|destruct e; exact Hkeep].
  destruct (pop (blocks b)) as [[[block md] rest]|]; [|exact Hkeep].
  simpl. repeat split; try assumption.
  intros j Hj. destruct rest.
  - rewrite lookup_delete_ne by congruence. reflexivity.
  - rewrite lookup_insert_ne by congruence. reflexivity.
Qed.

(** X10: on a coordinator that has no runner yet (no epoch was started), a
    [get] with the current epoch id for an index without leftover raises
    [AttributeError] and changes nothing. *)
Theorem get_before_first_epoch (output_split_idx : Z) (c : Coordinator) :
  _output_iterator c = None ->
  _next_bundle c !! output_split_idx = None ->
  get (_cur_epoch c) output_split_idx c = (Raise AttributeError, c).
Proof.
  intros Hit Hm. rewrite get_current_epoch, Hm.
  unfold SplitCoordinator.output_iterator_get_next. rewrite Hit. reflexivity.
Qed.

(** X11: when the runner hands over a bundle without blocks, [get] raises
    [IndexError]; the bundle is gone from the runner and the leftover map is
    as it was. *)
Theorem get_empty_bundle (output_split_idx : Z) (c : Coordinator)
    (it it' : Runner) (b : RefBundle Schema) :
  _next_bundle c !! output_split_idx = None ->
  _output_iterator c = Some it ->
  runner_get_next it output_split_idx = (Return b, it') ->
  blocks b = [] ->
  get (_cur_epoch c) output_split_idx c
  = (Raise IndexError, set_output_iterator (Some it') c).
Proof.
  intros Hm Hit Hpull Hb. rewrite get_current_epoch, Hm.
  unfold SplitCoordinator.output_iterator_get_next. rewrite Hit, Hpull, Hb.
  reflexivity.
Qed.

Lemma reads_S k epoch_id idx (c : Coordinator) :
  reads (S k) epoch_id idx c
  = let '(r, c1) := get epoch_id idx c in
    let '(rs, c2) := reads k epoch_id idx c1 in
    (r :: rs, c2).
Proof. reflexivity. Qed.

Lemma reads_app k1 : forall k2 epoch_id idx (c : Coordinator),
  reads (k1 + k2) epoch_id idx c
  = let '(rs1, c1) := reads k1 epoch_id idx c in
    let '(rs2, c2) := reads k2 epoch_id idx c1 in
    (rs1 ++ rs2, c2).
Proof.
  induction k1 as [|k1 IH]; intros k2 epoch_id idx c; simpl.
  - destruct (reads k2 epoch_id idx c). reflexivity.
  - destruct (get epoch_id idx c) as [r c1]. rewrite IH.
    destruct (reads k1 epoch_id idx c1) as [rs1 c2].
    destruct (reads k2 epoch_id idx c2). reflexivity.
Qed.

(** A leftover bundle is handed out block by block, last block first, and
    its entry then disappears. *)
Lemma reads_drain_leftover epoch_id idx owns (l : list (ObjectRef * BlockMetadata Schema)) :
  forall c : Coordinator,
  _cur_epoch c = epoch_id ->
  _next_bundle c !! idx = Some {| blocks := l; owns_blocks := owns |} ->
  l <> [] ->
  reads (length l) epoch_id idx c
  = (map (fun r => Return (Some r)) (rev (map fst l)),
     set_next_bundle (delete idx (_next_bundle c)) c).
Proof.
  induction l as [|x l IH] using rev_ind; intros c HE Hm Hne; [contradiction|].
  rewrite length_app, Nat.add_comm. simpl.
  rewrite (get_in_epoch epoch_id idx c HE), Hm. simpl.
  rewrite pop_snoc. destruct x as [block md].
  rewrite map_app, rev_app_distr. simpl.
  destruct l as [|y l].
  - reflexivity.
  - match goal with |- context [reads _ _ _ ?c1] =>
      rewrite (IH c1 HE) end.
    + simpl. rewrite delete_insert_eq. reflexivity.
    + simpl. apply lookup_insert_eq.
    + discriminate.
Qed.

(** A bundle taken from the runner is handed out block by block, last block
    first, before the runner is asked again. *)
Lemma reads_pulled_bundle epoch_id idx (c : Coordinator) it it' (b : RefBundle Schema) :
  _cur_epoch c = epoch_id ->
  _next_bundle c !! idx = None ->
  _output_iterator c = Some it ->
  runner_get_next it idx = (Return b, it') ->
  blocks b <> [] ->
  reads (length (blocks b)) epoch_id idx c
  = (map (fun r => Return (Some r)) (handed_out b), set_output_iterator (Some it') c).
Proof.
  intros HE Hm Hit Hpull Hne.
  unfold handed_out.
  destruct (exists_last Hne) as (l & x0 & Hb).
  rewrite Hb, length_app, Nat.add_comm. simpl.
  rewrite (get_in_epoch epoch_id idx c HE), Hm.
  unfold SplitCoordinator.output_iterator_get_next. rewrite Hit, Hpull. simpl.
  rewrite Hb, pop_snoc. destruct x0 as [block md].
  rewrite map_app, rev_app_distr. simpl.
  destruct l as [|y l].
  - simpl. rewrite (delete_id _ _ Hm). reflexivity.
  - match goal with |- context [reads _ _ _ ?c1] =>
      rewrite (reads_drain_leftover epoch_id idx (owns_blocks b) (y :: l) c1 HE) end.
    + simpl. rewrite delete_insert_eq, (delete_id _ _ Hm). reflexivity.
    + simpl. apply lookup_insert_eq.
    + discriminate.
Qed.

Lemma handed_out_length (b : RefBundle Schema) : length (handed_out b) = length (blocks b).
Proof. unfold handed_out. rewrite length_rev, length_map. reflexivity. Qed.

(** The bundles the runner gives are handed out one after the other, each
    block by block, before the runner is asked for the next. *)
Lemma reads_bundles (bs : list (RefBundle Schema)) :
  forall (c : Coordinator) (idx : Z) (it it_end : Runner),
  _next_bundle c !! idx = None ->
  _output_iterator c = Some it ->
  yields it idx bs it_end ->
  Forall (fun b => blocks b <> []) bs ->
  reads (length (concat (map handed_out bs))) (_cur_epoch c) idx c
  = (map (fun r => Return (Some r)) (concat (map handed_out bs)),
     set_output_iterator (Some it_end) c).
Proof.
  induction bs as [|b bs IH]; intros c idx it it_end Hm Hit Hy Hne.
  - simpl in *. subst it_end. rewrite <- Hit. destruct c. reflexivity.
  - destruct Hy as (it' & Hpull & Hy). apply Forall_cons in Hne as [Hb Hne].
    cbn [map concat]. rewrite length_app, handed_out_length.
    rewrite reads_app.
    rewrite (reads_pulled_bundle (_cur_epoch c) idx c it it' b eq_refl Hm Hit Hpull Hb).
    change (_cur_epoch c) with (_cur_epoch (set_output_iterator (Some it') c)).
    rewrite (IH (set_output_iterator (Some it') c) idx it' it_end Hm eq_refl Hy Hne).
    rewrite map_app. reflexivity.
Qed.

(** The call after the last block finds the runner exhausted. *)
Ltac read_to_the_end Hm Hit Hy Hne Hstop :=
  match goal with
  | |- context [S (length ?l)] =>
      replace (S (length l)) with (length l + 1)%nat by lia
  end;
  rewrite reads_app, (reads_bundles _ _ _ _ _ Hm Hit Hy Hne);
  cbn [SplitCoordinator.reads];
  match goal with
  | |- context [SplitCoordinator.get _ ?e ?idx ?c1] =>
      rewrite (get_in_epoch e idx c1 eq_refl)
  end;
  cbn [_next_bundle set_output_iterator]; rewrite Hm;
  unfold SplitCoordinator.output_iterator_get_next;
  cbn [_output_iterator set_output_iterator]; rewrite Hstop.

(** X12: a reader alone on its index, with no leftover, whose runner gives
    the bundles [bs] (none of them empty) and is then exhausted, receives
    from its successive [get] calls every block of every bundle exactly
    once, bundle after bundle, the blocks of a bundle last first, and then
    [None]; the leftover map ends as it began. *)
Theorem reads_deliver_each_block_once (bs : list (RefBundle Schema)) :
  forall (c : Coordinator) (output_split_idx : Z) (it it_end it_stop : Runner),
  _next_bundle c !! output_split_idx = None ->
  _output_iterator c = Some it ->
  yields it output_split_idx bs it_end ->
  Forall (fun b => blocks b <> []) bs ->
  runner_get_next it_end output_split_idx = (Raise StopIteration, it_stop) ->
  reads (S (length (concat (map handed_out bs)))) (_cur_epoch c) output_split_idx c
  = (map (fun r => Return (Some r)) (concat (map handed_out bs)) ++ [Return None],
     set_output_iterator (Some it_stop) c).
Proof.
  intros c idx it it_end it_stop Hm Hit Hy Hne Hstop.
  read_to_the_end Hm Hit Hy Hne Hstop.
  reflexivity.
Qed.

Lemma gen_blocks_take_yield k self epoch_id block_ref (c : Coordinator) :
  gen_blocks_take (S k) self epoch_id (Return (Some block_ref)) c
  = let '(bs, st, c2) :=
      gen_blocks_take k self epoch_id
        (get epoch_id (_output_split_idx self) c).1
        (get epoch_id (_output_split_idx self) c).2 in
    (block_ref :: bs, st, c2).
Proof.
  cbn [SplitCoordinator.gen_blocks_take SplitCoordinator.gen_blocks_resume].
  destruct (get epoch_id (_output_split_idx self) c) as [r c1]. reflexivity.
Qed.

(** The generator and the plain sequence of [get] calls: a consumer that
    takes the blocks until the generator stops sees what the calls return. *)
Lemma gen_blocks_take_reads self epoch_id (bs : list ObjectRef) :
  forall c c' : Coordinator,
  reads (S (length bs)) epoch_id (_output_split_idx self) c
  = (map (fun r => Return (Some r)) bs ++ [Return None], c') ->
  gen_blocks_take (S (length bs)) self epoch_id
    (gen_blocks_start self epoch_id c).1 (gen_blocks_start self epoch_id c).2
  = (bs, Some Stopped, c').
Proof.
  unfold SplitCoordinator.gen_blocks_start.
  induction bs as [|b bs IH]; intros c c' Hreads.
  - simpl in *. destruct (get epoch_id (_output_split_idx self) c) as [r c1].
    injection Hreads as -> <-. reflexivity.
  - rewrite (reads_S (length (b :: bs))) in Hreads.
    destruct (get epoch_id (_output_split_idx self) c) as [r c1].
    cbn [length] in Hreads.
    destruct (reads (S (length bs)) epoch_id (_output_split_idx self) c1)
      as [rs c2] eqn:Hrest.
    simpl in Hreads. injection Hreads as -> -> <-.
    specialize (IH c1 c2 Hrest).
    cbn [length fst snd]. rewrite gen_blocks_take_yield, IH. reflexivity.
Qed.

(** X13: the generator [gen_blocks] of a reader alone on its index, with no
    leftover, whose runner gives the bundles [bs] (none of them empty) and is
    then exhausted, yields every block of every bundle exactly once, bundle
    after bundle, the blocks of a bundle last first, and then stops. *)
Theorem gen_blocks_yields_each_block_once (self : StreamSplitDatasetIterator)
    (bs : list (RefBundle Schema)) (c : Coordinator) (it it_end it_stop : Runner) :
  _next_bundle c !! _output_split_idx self = None ->
  _output_iterator c = Some it ->
  yields it (_output_split_idx self) bs it_end ->
  Forall (fun b => blocks b <> []) bs ->
  runner_get_next it_end (_output_split_idx self) = (Raise StopIteration, it_stop) ->
  gen_blocks_take (S (length (concat (map handed_out bs)))) self (_cur_epoch c)
    (gen_blocks_start self (_cur_epoch c) c).1 (gen_blocks_start self (_cur_epoch c) c).2
  = (concat (map handed_out bs), Some Stopped, set_output_iterator (Some it_stop) c).
Proof.
  intros Hm Hit Hy Hne Hstop.
  apply gen_blocks_take_reads.
  read_to_the_end Hm Hit Hy Hne Hstop.
  reflexivity.
Qed.


End GetFurther.

Section GetFurtherRuns.

Import SplitCoordinator.

(** A new coordinator, before any [start_epoch]. *)
Lemma get_before_first_epoch_witness :
  let c : Simple.Coordinator := __init__ 2 in
  Simple.get (_cur_epoch c) 0 c = (Raise AttributeError, c).
Proof.
  intros c.
  apply (@get_before_first_epoch unit Simple.Runner Simple.runner_get_next 0 c).
  - reflexivity.
  - reflexivity.
Defined.

(** The runner gives index 0 a bundle without blocks. *)
Lemma get_empty_bundle_witness :
  let it : Simple.Runner := {[ 0 := [Return (Simple.bundle [])] ]} in
  let c := Simple.coordinator 0 ∅ it in
  Simple.get (_cur_epoch c) 0 c
  = (Raise IndexError, set_output_iterator (Some (<[0 := []]> it)) c).
Proof.
  intros it c.
  apply (@get_empty_bundle unit Simple.Runner Simple.runner_get_next
           0 c it (<[0 := []]> it) (Simple.bundle [])).
  - reflexivity.
  - reflexivity.
  - vm_compute. reflexivity.
  - reflexivity.
Defined.

(** The runner gives index 0 a bundle of blocks 0 and 1, then a bundle of
    block 2: the reader gets 1, 0, 2 and then nothing. *)
Lemma reads_deliver_each_block_once_witness :
  let b1 := Simple.bundle [(0%nat, 1); (1%nat, 1)] in
  let b2 := Simple.bundle [(2%nat, 1)] in
  let it : Simple.Runner := {[ 0 := [Return b1; Return b2] ]} in
  let it_end : Simple.Runner := {[ 0 := [] ]} in
  let c := Simple.coordinator 0 ∅ it in
  reads Simple.runner_get_next 4 (_cur_epoch c) 0 c
  = ([Return (Some 1%nat); Return (Some 0%nat); Return (Some 2%nat); Return None],
     set_output_iterator (Some it_end) c).
Proof.
  intros b1 b2 it it_end c.
  apply (@reads_deliver_each_block_once unit Simple.Runner Simple.runner_get_next
           [b1; b2] c 0 it it_end it_end).
  - reflexivity.
  - reflexivity.
  - eexists. split; [vm_compute; reflexivity|].
    eexists. split; [vm_compute; reflexivity|].
    vm_compute. reflexivity.
  - repeat constructor; discriminate.
  - vm_compute. reflexivity.
Defined.

(** The same runner, read through the generator of the reader of index 0. *)
Lemma gen_blocks_yields_each_block_once_witness :
  let self := {| _output_split_idx := 0 |} in
  let b1 := Simple.bundle [(0%nat, 1); (1%nat, 1)] in
  let b2 := Simple.bundle [(2%nat, 1)] in
  let it : Simple.Runner := {[ 0 := [Return b1; Return b2] ]} in
  let it_end : Simple.Runner := {[ 0 := [] ]} in
  let c := Simple.coordinator 0 ∅ it in
  gen_blocks_take Simple.runner_get_next 4 self (_cur_epoch c)
    (gen_blocks_start Simple.runner_get_next self (_cur_epoch c) c).1
    (gen_blocks_start Simple.runner_get_next self (_cur_epoch c) c).2
  = ([1%nat; 0%nat; 2%nat], Some Stopped, set_output_iterator (Some it_end) c).
Proof.
  intros self b1 b2 it it_end c.
  apply (@gen_blocks_yields_each_block_once unit Simple.Runner Simple.runner_get_next
           self [b1; b2] c it it_end it_end).
  - reflexivity.
  - reflexivity.
  - eexists. split; [vm_compute; reflexivity|].
    eexists. split; [vm_compute; reflexivity|].
    vm_compute. reflexivity.
  - repeat constructor; discriminate.
  - vm_compute. reflexivity.
Defined.


End GetFurtherRuns.

(** * Further properties of the split coordinator: the barrier *)

Section BarrierFurther.

Import SplitCoordinator.

Context {Schema Runner : Type}.
Context (runner_get_next : Runner -> Z -> Outcome (RefBundle Schema) * Runner).
Context (gen_epochs_yield : nat -> Runner).

Local Abbreviation Coordinator := (@SplitCoordinator Schema Runner).
Local Abbreviation System := (@System Schema Runner).
Local Abbreviation get := (@get Schema Runner runner_get_next).
Local Abbreviation step := (@step Schema Runner gen_epochs_yield).
Local Abbreviation run := (@run Schema Runner gen_epochs_yield).
Local Abbreviation barrier_inv := (@barrier_inv Schema Runner gen_epochs_yield).
Local Abbreviation epoch_advanced := (@epoch_advanced Schema Runner gen_epochs_yield).
Local Abbreviation rounds := (@rounds Schema Runner gen_epochs_yield).
Local Abbreviation rounds_complete := (@rounds_complete Schema Runner gen_epochs_yield).

(** Every state a barrier can reach satisfies its invariant. *)
Lemma barrier_reachable (c0 : Coordinator) n sched :
  _n c0 = Z.of_nat n ->
  _unfinished_clients_in_epoch c0 = _n c0 ->
  barrier_inv c0 n (run sched (start_epoch_calls c0 n)).
Proof.
  intros Hn Hu. apply barrier_inv_run, barrier_inv_init; assumption.
Qed.

Lemma pending_le_length (ts : list Pc) : pending ts <= Z.of_nat (length ts).
Proof.
  induction ts as [|pc ts IH]; simpl; [lia|]. destruct (arrived pc); lia.
Qed.

(** X15: the two [with self._lock] blocks exclude one another: at no moment
    are two callers inside them, and the caller that is inside owns the
    lock. *)
Theorem barrier_mutual_exclusion (c0 : Coordinator) (n : nat) (sched : list nat) :
  _n c0 = Z.of_nat n ->
  _unfinished_clients_in_epoch c0 = _n c0 ->
  let σ := run sched (start_epoch_calls c0 n) in
  forall i j pci pcj,
    threads σ !! i = Some pci -> threads σ !! j = Some pcj ->
    holds_lock pci = true -> holds_lock pcj = true ->
    i = j /\ lock_owner σ = Some i.
Proof.
  intros Hn Hu σ i j pci pcj Hi Hj Hhi Hhj.
  pose proof (barrier_reachable c0 n sched Hn Hu) as Hinv. fold σ in Hinv.
  pose proof (inv_owner _ _ _ _ Hinv i pci Hi Hhi) as Hoi.
  pose proof (inv_owner _ _ _ _ Hinv j pcj Hj Hhj) as Hoj.
  split; [congruence | exact Hoi].
Qed.

(** X16: at every moment of a barrier the arrival counter is between 0 and
    [n]; the epoch id is the old one or the next; at most one runner has
    been taken from the generator; and [_n] and the leftover map are what
    they were. *)
Theorem barrier_counter_bounds (c0 : Coordinator) (n : nat) (sched : list nat) :
  _n c0 = Z.of_nat n ->
  _unfinished_clients_in_epoch c0 = _n c0 ->
  let c := coordinator (run sched (start_epoch_calls c0 n)) in
  0 <= _unfinished_clients_in_epoch c <= Z.of_nat n
  /\ (_cur_epoch c = _cur_epoch c0 \/ _cur_epoch c = _cur_epoch c0 + 1)
  /\ (_next_epoch c = _next_epoch c0 \/ _next_epoch c = S (_next_epoch c0))
  /\ _n c = _n c0
  /\ _next_bundle c = _next_bundle c0.
Proof.
  intros Hn Hu c.
  pose proof (barrier_reachable c0 n sched Hn Hu) as Hinv.
  set (σ := run sched (start_epoch_calls c0 n)) in *. fold c.
  pose proof (pending_nonneg (threads σ)) as Hp0.
  pose proof (pending_le_length (threads σ)) as Hp1.
  rewrite (inv_length _ _ _ _ Hinv) in Hp1.
  split; [|split; [|split; [|split]]];
    try exact (inv_n _ _ _ _ Hinv); try exact (inv_next_bundle _ _ _ _ Hinv).
  all: destruct (decide (_cur_epoch (coordinator σ) = _cur_epoch c0)) as [HE|HE].
  all: try (destruct (inv_before _ _ _ _ Hinv HE) as (B1 & B2 & B3)).
  all: try (destruct (inv_after _ _ _ _ Hinv HE) as (A1 & A2 & [Hadv | (j & s & Hj)])).
  all: try (destruct Hadv as (D1 & D2 & D3 & D4)).
  all: try (destruct Hj as [Hj|Hj];
            pose proof (inv_threads _ _ _ _ Hinv j _ Hj) as Hok; simpl in Hok).
  all: subst c; try lia; try tauto.
Qed.

Lemma step_other_thread (σ σ' : System) i j :
  step i σ = Some σ' -> j <> i -> threads σ' !! j = threads σ !! j.
Proof.
  intros Hstep Hne. unfold SplitCoordinator.step in Hstep.
  destruct (threads σ !! i) as [pc|]; [|discriminate].
  destruct pc; try discriminate;
    unfold acquire, goto, release, assign in Hstep;
    try (destruct (lock_owner σ); [discriminate|]);
    injection Hstep as <-; simpl;
    apply list_lookup_insert_ne; congruence.
Qed.

Lemma run_absent_thread sched : forall (σ : System) j,
  j ∉ sched -> threads (run sched σ) !! j = threads σ !! j.
Proof.
  induction sched as [|i sched IH]; intros σ j Hj; [reflexivity|].
  apply not_elem_of_cons in Hj as [Hne Hj].
  rewrite run_cons, (IH _ j Hj).
  destruct (step i σ) as [σ'|] eqn:Hs; simpl; [|reflexivity].
  exact (step_other_thread σ σ' i j Hs Hne).
Qed.

(** X17: while one of the [n] clients has not run a statement of its
    [start_epoch], no caller leaves the waiting loop, however the others are
    scheduled: none returns, the epoch id stays, and no runner is built. *)
Theorem barrier_waits_for_every_client (c0 : Coordinator) (n : nat)
    (sched : list nat) (j : nat) :
  _n c0 = Z.of_nat n ->
  _unfinished_clients_in_epoch c0 = _n c0 ->
  (j < n)%nat ->
  j ∉ sched ->
  let σ := run sched (start_epoch_calls c0 n) in
  (forall i pc, threads σ !! i = Some pc -> past_loop pc = false)
  /\ _cur_epoch (coordinator σ) = _cur_epoch c0
  /\ _next_epoch (coordinator σ) = _next_epoch c0
  /\ _output_iterator (coordinator σ) = _output_iterator c0.
Proof.
  intros Hn Hu Hjn Hj σ.
  pose proof (barrier_reachable c0 n sched Hn Hu) as Hinv. fold σ in Hinv.
  assert (Hwait : threads σ !! j = Some AtAcquire1).
  { unfold σ. rewrite (run_absent_thread sched _ j Hj). simpl.
    apply lookup_replicate_2. exact Hjn. }
  pose proof (pending_lookup (threads σ) j AtAcquire1 Hwait) as Hp. simpl in Hp.
  assert (HE : _cur_epoch (coordinator σ) = _cur_epoch c0).
  { destruct (decide (_cur_epoch (coordinator σ) = _cur_epoch c0)) as [HE|HE];
      [exact HE|]. destruct (inv_after _ _ _ _ Hinv HE) as (_ & H0 & _). lia. }
  split; [|split; [exact HE | apply (inv_before _ _ _ _ Hinv HE)]].
  intros i pc Hi. pose proof (inv_threads _ _ _ _ Hinv i pc Hi) as Hok.
  destruct pc; try reflexivity; simpl in Hok;
    unfold SplitCoordinator.advanced in Hok; exfalso; lia || tauto.
Qed.

(** When all callers of a barrier have returned, the coordinator is the one
    they entered with the epoch advanced, the lock is free, and all
    returned the new epoch id. *)
Lemma barrier_final (c0 : Coordinator) n sched :
  _n c0 = Z.of_nat n ->
  _unfinished_clients_in_epoch c0 = _n c0 ->
  (0 < n)%nat ->
  all_returned (run sched (start_epoch_calls c0 n)) = true ->
  coordinator (run sched (start_epoch_calls c0 n)) = epoch_advanced c0
  /\ lock_owner (run sched (start_epoch_calls c0 n)) = None
  /\ threads (run sched (start_epoch_calls c0 n))
     = replicate n (Returned (_cur_epoch c0 + 1)).
Proof.
  intros Hn Hu Hpos Hall.
  pose proof (barrier_reachable c0 n sched Hn Hu) as Hinv.
  set (σ := run sched (start_epoch_calls c0 n)) in *.
  unfold all_returned in Hall. rewrite forallb_forall in Hall.
  assert (Hret : forall i pc, threads σ !! i = Some pc ->
            pc = Returned (_cur_epoch c0 + 1) /\ advanced gen_epochs_yield c0 (coordinator σ)).
  { intros i pc Hi.
    assert (returned pc = true) as Hr
      by (apply Hall, list_elem_of_In, list_elem_of_lookup; exists i; exact Hi).
    pose proof (inv_threads _ _ _ _ Hinv i pc Hi) as Hok.
    destruct pc; try discriminate. simpl in Hok. destruct Hok as [-> Hadv].
    split; [reflexivity | exact Hadv]. }
  split; [|split].
  - destruct (threads σ !! 0%nat) as [pc|] eqn:H0.
    + destruct (Hret 0%nat pc H0) as [_ (A1 & A2 & A3 & A4)].
      pose proof (inv_n _ _ _ _ Hinv) as B1.
      pose proof (inv_next_bundle _ _ _ _ Hinv) as B2.
      unfold SplitCoordinator.epoch_advanced, SplitCoordinator.next_epoch. simpl.
      destruct (coordinator σ); simpl in *. congruence.
    + apply lookup_ge_None in H0. rewrite (inv_length _ _ _ _ Hinv) in H0. lia.
  - destruct (lock_owner σ) as [j|] eqn:Hlk; [|reflexivity].
    destruct (inv_owned _ _ _ _ Hinv j Hlk) as (pc & Hj & Hh).
    destruct (Hret j pc Hj) as [-> _]. discriminate.
  - symmetry. apply replicate_as_Forall. split; [exact (inv_length _ _ _ _ Hinv)|].
    apply Forall_lookup. intros i pc Hi. destruct (Hret i pc Hi) as [-> _]. reflexivity.
Qed.

(** X18: barriers follow one another: after [k] barriers that all callers
    have passed, the epoch id has gone up by [k], the generator has been
    asked for [k] runners, one at each barrier and none ahead of time, the
    runner in place is the last one built, and the counter is back at [n]. *)
Theorem rounds_advance_one_epoch_each (scheds : list (list nat)) :
  forall (c0 : Coordinator) (n : nat),
  _n c0 = Z.of_nat n ->
  _unfinished_clients_in_epoch c0 = _n c0 ->
  (0 < n)%nat ->
  rounds_complete scheds c0 n ->
  let c := rounds scheds c0 n in
  _cur_epoch c = _cur_epoch c0 + Z.of_nat (length scheds)
  /\ _next_epoch c = (_next_epoch c0 + length scheds)%nat
  /\ _unfinished_clients_in_epoch c = _n c0
  /\ _n c = _n c0
  /\ _next_bundle c = _next_bundle c0
  /\ (scheds <> [] ->
      _output_iterator c = Some (gen_epochs_yield (_next_epoch c0 + length scheds - 1))).
Proof.
  induction scheds as [|sched scheds IH]; intros c0 n Hn Hu Hpos Hcomplete.
  - simpl. repeat split; try lia; congruence.
  - destruct Hcomplete as [Hall Hrest].
    destruct (barrier_final c0 n sched Hn Hu Hpos Hall) as (Hc & _ & _).
    cbn [SplitCoordinator.rounds]. rewrite Hc in *.
    destruct (IH (epoch_advanced c0) n Hn eq_refl Hpos Hrest) as (A & B & C & D & E & F).
    simpl in A, B, C, D, E, F. cbn zeta.
    repeat split; try assumption; try (simpl; lia).
    intros _. destruct scheds as [|s scheds].
    + simpl. f_equal. f_equal. lia.
    + rewrite F by discriminate. f_equal. f_equal. simpl. lia.
Qed.

(** X19: a barrier does not empty the leftover map: a bundle left for an
    index in the old epoch is still there when all callers have returned,
    and a [get] with the new epoch id hands out its last block. *)
Theorem leftover_survives_barrier (c0 : Coordinator) (n : nat) (sched : list nat)
    (output_split_idx : Z) (b : RefBundle Schema) rest block md :
  _n c0 = Z.of_nat n ->
  _unfinished_clients_in_epoch c0 = _n c0 ->
  (0 < n)%nat ->
  all_returned (run sched (start_epoch_calls c0 n)) = true ->
  _next_bundle c0 !! output_split_idx = Some b ->
  blocks b = rest ++ [(block, md)] ->
  let c := coordinator (run sched (start_epoch_calls c0 n)) in
  _next_bundle c !! output_split_idx = Some b
  /\ (get (_cur_epoch c0 + 1) output_split_idx c).1 = Return (Some block).
Proof.
  intros Hn Hu Hpos Hall Hm Hb c.
  destruct (barrier_final c0 n sched Hn Hu Hpos Hall) as (Hc & _ & _).
  subst c. rewrite Hc. split; [exact Hm|].
  change (_cur_epoch c0 + 1) with (_cur_epoch (epoch_advanced c0)).
  rewrite get_current_epoch. simpl. rewrite Hm, Hb.
  unfold pop. rewrite last_snoc, removelast_last. reflexivity.
Qed.

(** X20: a coordinator with one client: the single caller of [start_epoch]
    passes the barrier in thirteen statements of its own, never sleeping,
    and returns the next epoch id. *)
Theorem lone_client_passes (c0 : Coordinator) :
  _n c0 = 1 ->
  _unfinished_clients_in_epoch c0 = 1 ->
  run (replicate 13 0%nat) (start_epoch_calls c0 1)
  = {| coordinator := epoch_advanced c0;
       lock_owner := None;
       threads := [Returned (_cur_epoch c0 + 1)] |}.
Proof.
  intros Hn Hu. destruct c0 as [n0 m u e k it]. simpl in Hn, Hu. subst n0 u.
  unfold start_epoch_calls. cbn [replicate].
  do 4 (rewrite run_cons; cbn -[SplitCoordinator.run bool_decide]).
  rewrite run_cons; cbn -[SplitCoordinator.run bool_decide].
  rewrite bool_decide_eq_true_2 by reflexivity.
  rewrite run_cons; cbn -[SplitCoordinator.run bool_decide].
  rewrite bool_decide_eq_false_2 by (intros H; apply H; reflexivity).
  rewrite run_cons; cbn -[SplitCoordinator.run bool_decide].
  rewrite run_cons; cbn -[SplitCoordinator.run bool_decide].
  rewrite bool_decide_eq_true_2 by reflexivity.
  do 5 (rewrite run_cons; cbn -[SplitCoordinator.run bool_decide]).
  reflexivity.
Qed.

End BarrierFurther.

Section BarrierFurtherRuns.

Import SplitCoordinator.

(** Two clients; the first has taken the lock and read the epoch, the
    second has had a turn and waits for the lock. *)
Lemma barrier_mutual_exclusion_witness :
  let c0 : Simple.Coordinator := __init__ 2 in
  let σ := Simple.run_sched [0%nat; 0%nat; 1%nat] (start_epoch_calls c0 2) in
  threads σ = [AtDecrement (-1); AtAcquire1]
  /\ (0%nat = 0%nat /\ lock_owner σ = Some 0%nat).
Proof.
  intros c0 σ. split; [reflexivity|].
  apply (@barrier_mutual_exclusion unit Simple.Runner Simple.gen_epochs_yield
           c0 2%nat [0%nat; 0%nat; 1%nat] eq_refl eq_refl
           0%nat 0%nat (AtDecrement (-1)) (AtDecrement (-1))).
  - reflexivity.
  - reflexivity.
  - reflexivity.
  - reflexivity.
Defined.

(** Two clients; the first waits in the loop, the second is on its way. *)
Lemma barrier_counter_bounds_witness :
  let c0 : Simple.Coordinator := __init__ 2 in
  let sched := replicate 7 0%nat ++ replicate 3 1%nat in
  let c := coordinator (Simple.run_sched sched (start_epoch_calls c0 2)) in
  0 <= _unfinished_clients_in_epoch c <= Z.of_nat 2
  /\ (_cur_epoch c = _cur_epoch c0 \/ _cur_epoch c = _cur_epoch c0 + 1)
  /\ (_next_epoch c = _next_epoch c0 \/ _next_epoch c = S (_next_epoch c0))
  /\ _n c = _n c0
  /\ _next_bundle c = _next_bundle c0.
Proof.
  intros c0 sched c.
  apply (@barrier_counter_bounds unit Simple.Runner Simple.gen_epochs_yield
           c0 2%nat sched).
  - reflexivity.
  - reflexivity.
Defined.

(** Two clients, of which only the first is scheduled. *)
Lemma barrier_waits_for_every_client_witness :
  let c0 : Simple.Coordinator := __init__ 2 in
  let sched := replicate 20 0%nat in
  let σ := Simple.run_sched sched (start_epoch_calls c0 2) in
  (forall i pc, threads σ !! i = Some pc -> past_loop pc = false)
  /\ _cur_epoch (coordinator σ) = _cur_epoch c0
  /\ _next_epoch (coordinator σ) = _next_epoch c0
  /\ _output_iterator (coordinator σ) = _output_iterator c0.
Proof.
  intros c0 sched σ.
  apply (@barrier_waits_for_every_client unit Simple.Runner Simple.gen_epochs_yield
           c0 2%nat sched 1%nat).
  - reflexivity.
  - reflexivity.
  - lia.
  - apply (bool_decide_unpack _). vm_compute. exact I.
Defined.

(** Two barriers of two clients, each run to the end. *)
Lemma rounds_advance_one_epoch_each_witness :
  let c0 : Simple.Coordinator := __init__ 2 in
  let sched := replicate 7 0%nat ++ replicate 14 1%nat ++ replicate 7 0%nat in
  let scheds := [sched; sched] in
  let c := rounds Simple.gen_epochs_yield scheds c0 2 in
  _cur_epoch c = _cur_epoch c0 + Z.of_nat (length scheds)
  /\ _next_epoch c = (_next_epoch c0 + length scheds)%nat
  /\ _unfinished_clients_in_epoch c = _n c0
  /\ _n c = _n c0
  /\ _next_bundle c = _next_bundle c0
  /\ (scheds <> [] ->
      _output_iterator c
      = Some (Simple.gen_epochs_yield (_next_epoch c0 + length scheds - 1))).
Proof.
  intros c0 sched scheds c.
  apply (@rounds_advance_one_epoch_each unit Simple.Runner Simple.gen_epochs_yield
           scheds c0 2%nat).
  - reflexivity.
  - reflexivity.
  - lia.
  - vm_compute. repeat split; reflexivity.
Defined.

(** Index 0 still has blocks 5 and 6 of epoch 0 when the clients pass the
    barrier into epoch 1. *)
Lemma leftover_survives_barrier_witness :
  let b := Simple.bundle [(5%nat, 1); (6%nat, 1)] in
  let c0 := Simple.coordinator 0 {[ 0 := b ]} (Simple.gen_epochs_yield 0) in
  let sched := replicate 7 0%nat ++ replicate 14 1%nat ++ replicate 7 0%nat in
  let c := coordinator (Simple.run_sched sched (start_epoch_calls c0 2)) in
  _next_bundle c !! 0 = Some b
  /\ (Simple.get (_cur_epoch c0 + 1) 0 c).1 = Return (Some 6%nat).
Proof.
  intros b c0 sched c.
  apply (@leftover_survives_barrier unit Simple.Runner Simple.runner_get_next
           Simple.gen_epochs_yield c0 2%nat sched 0 b
           [(5%nat, Simple.metadata 1)] 6%nat (Simple.metadata 1)).
  - reflexivity.
  - reflexivity.
  - lia.
  - vm_compute. reflexivity.
  - reflexivity.
  - reflexivity.
Defined.

(** A new coordinator with one client. *)
Lemma lone_client_passes_witness :
  let c0 : Simple.Coordinator := __init__ 1 in
  Simple.run_sched (replicate 13 0%nat) (start_epoch_calls c0 1)
  = {| coordinator := epoch_advanced Simple.gen_epochs_yield c0;
       lock_owner := None;
       threads := [Returned (_cur_epoch c0 + 1)] |}.
Proof.
  intros c0.
  apply (@lone_client_passes unit Simple.Runner Simple.gen_epochs_yield c0).
  - reflexivity.
  - reflexivity.
Defined.

End BarrierFurtherRuns.
